(** * An in-memory publish/subscribe broker: model and properties

    Shallow embedding of [streaming_system.py]: the message record, the
    broker ([create_topic], [publish], [consume], [add_consumer]), the
    producer ([send]), the consumer ([subscribe], one sweep of the
    [start_consuming] loop) and the processor's message handler.

    Python objects that the code shares by reference are kept in stores:
    [StreamMessage] objects live in a heap and the partition logs hold
    their addresses, so that [message.partition = partition] is an update
    of the one shared object.  Every operation is a function from the
    world to an outcome: it returns, raises, or blocks for ever on the
    broker's lock ([threading.Lock] is not re-entrant). *)

From Stdlib Require Import ZArith Floats Lia.
From stdpp Require Import base option strings pretty list gmap sets.

Local Open Scope Z_scope.
Set Warnings "-register-all".

(** ** Python values *)

(** A reference to a [StreamMessage] object, and the identity of a
    [StreamConsumer] object. *)
Abbreviation addr := nat (only parsing).
Abbreviation cref := nat (only parsing).

(** The payloads carried by a message ([Dict[str, Any]]): JSON-like
    values.  A dict keeps its insertion order, as Python's does. *)
Inductive pyval :=
  | PyNone
  | PyBool (b : bool)
  | PyInt (z : Z)
  | PyFloat (f : float)
  | PyStr (s : string)
  | PyList (l : list pyval)
  | PyDict (d : list (string * pyval)).

Definition pydict := list (string * pyval).

(** [d.get(k)] and [{**d, k: v}]: a present key keeps its position and
    takes the new value, a new key goes to the end. *)
Fixpoint dict_get (k : string) (d : pydict) : option pyval :=
  match d with
  | [] => None
  | (k', v) :: d' => if String.eqb k k' then Some v else dict_get k d'
  end.

Fixpoint dict_set (k : string) (v : pyval) (d : pydict) : pydict :=
  match d with
  | [] => [(k, v)]
  | (k', v') :: d' =>
      if String.eqb k k' then (k, v) :: d' else (k', v') :: dict_set k v d'
  end.

(** The exceptions the modelled code can meet.  [UserError] is an
    exception class of user code derived from [Exception].
    [SystemExit] and [KeyboardInterrupt] derive from [BaseException]
    only: user code (a handler, a transform) can raise them, and an
    [except Exception] clause does not catch them. *)
Inductive exn :=
  | ZeroDivisionError
  | IndexError
  | KeyError
  | AttributeError
  | TypeError
  | OverflowError
  | UserError
  | SystemExit
  | KeyboardInterrupt.

(** [isinstance(e, Exception)]. *)
Definition is_Exception (e : exn) : bool :=
  match e with
  | SystemExit | KeyboardInterrupt => false
  | _ => true
  end.

(** [a % b] on Python integers: the remainder takes the sign of the
    divisor, as [Z.modulo] does; a zero divisor raises. *)
Definition py_mod (a b : Z) : exn + Z :=
  if b =? 0 then inl ZeroDivisionError else inr (a mod b).

(** The position [l[i]] denotes in a list of length [len]: negative
    indices count from the end, anything else out of range raises
    [IndexError]. *)
Definition py_index (len : nat) (i : Z) : exn + nat :=
  if (0 <=? i) && (i <? Z.of_nat len) then inr (Z.to_nat i)
  else if (- Z.of_nat len <=? i) && (i <? 0) then inr (Z.to_nat (Z.of_nat len + i))
  else inl IndexError.

(** [l[:stop]]: a negative [stop] counts from the end, and the bound is
    clamped to the list. *)
Definition py_slice_to {A} (l : list A) (stop : Z) : list A :=
  if stop <? 0 then take (Z.to_nat (Z.of_nat (length l) + stop)) l
  else take (Z.to_nat stop) l.

(** [float(z)] as the conversion inside [int * float]: the nearest
    double, [OverflowError] when it is out of range. *)
Definition py_float_of_int (z : Z) : exn + float :=
  let f := SF2Prim (binary_normalize prec emax z 0 false) in
  if PrimFloat.is_infinity f then inl OverflowError else inr f.

(** [x * 1.5] for a payload value [x]. *)
Definition py_mul_float (x : pyval) (y : float) : exn + pyval :=
  match x with
  | PyInt z =>
      match py_float_of_int z with
      | inr f => inr (PyFloat (f * y)%float)
      | inl e => inl e
      end
  | PyBool b => inr (PyFloat ((if b then 1 else 0) * y)%float)
  | PyFloat f => inr (PyFloat (f * y)%float)
  | _ => inl TypeError
  end.

(** ** The data model *)

(** [@dataclass StreamMessage]; [partition] defaults to [0]. *)
Record StreamMessage := mkStreamMessage {
  topic : string;
  key : string;
  value : pydict;
  timestamp : Z;
  partition : Z
}.

Definition with_partition (p : Z) (m : StreamMessage) : StreamMessage :=
  mkStreamMessage (topic m) (key m) (value m) (timestamp m) p.

(** An entry of [StreamBroker.topics]: the dict
    [{'partitions': n, 'messages': [[], ...]}]. *)
Record TopicData := mkTopicData {
  partitions : Z;
  messages : list (list addr)
}.

(** [StreamBroker]: [topics], [consumers] (a list of consumer objects
    per topic) and [lock], which is [true] while some thread holds it.
    ([message_queues] is never read or written after [__init__].) *)
Record StreamBroker := mkStreamBroker {
  topics : gmap string TopicData;
  consumers : gmap string (list cref);
  lock : bool
}.

(** The world an operation runs in: the message objects, the broker,
    and the history of handler invocations (each message a consumer
    loop has handed to its handler, in order). *)
Record World := mkWorld {
  heap : list StreamMessage;
  broker : StreamBroker;
  handled : list addr
}.

Definition new_broker : StreamBroker := mkStreamBroker ∅ ∅ false.
Definition new_world : World := mkWorld [] new_broker [].

Definition set_heap (h : list StreamMessage) (w : World) : World :=
  mkWorld h (broker w) (handled w).
Definition set_broker (b : StreamBroker) (w : World) : World :=
  mkWorld (heap w) b (handled w).
Definition set_handled (l : list addr) (w : World) : World :=
  mkWorld (heap w) (broker w) l.
Definition set_topics (ts : gmap string TopicData) (b : StreamBroker) : StreamBroker :=
  mkStreamBroker ts (consumers b) (lock b).
Definition set_consumers (cs : gmap string (list cref)) (b : StreamBroker) : StreamBroker :=
  mkStreamBroker (topics b) cs (lock b).
Definition set_lock (l : bool) (b : StreamBroker) : StreamBroker :=
  mkStreamBroker (topics b) (consumers b) l.

(** ** Outcomes and the monad of operations *)

(** An operation returns a value, raises an exception, or never returns
    because it waits for a lock that is not released. *)
Inductive outcome (A : Type) :=
  | Ret (a : A) (w : World)
  | Raise (e : exn) (w : World)
  | Blocked (w : World).
Arguments Ret {A} a w.
Arguments Raise {A} e w.
Arguments Blocked {A} w.

Definition M (A : Type) : Type := World → outcome A.

Definition ret {A} (a : A) : M A := λ w, Ret a w.
Definition raise {A} (e : exn) : M A := λ w, Raise e w.
Definition bind {A B} (c : M A) (k : A → M B) : M B := λ w,
  match c w with
  | Ret a w' => k a w'
  | Raise e w' => Raise e w'
  | Blocked w' => Blocked w'
  end.

Notation "'let*' x := c 'in' k" := (bind c (λ x, k))
  (at level 10, x binder, c at level 100, k at level 200).
Notation "c ;;; k" := (bind c (λ _, k))
  (at level 100, k at level 200, right associativity).

(** [try: body except Exception as e: handler]: an exception that is
    not an [Exception] passes through. *)
Definition try_except {A} (body : M A) (handler : exn → M A) : M A := λ w,
  match body w with
  | Raise e w' => if is_Exception e then handler e w' else Raise e w'
  | o => o
  end.

(** A Python result that is either a value or an exception. *)
Definition lift {A} (r : exn + A) : M A :=
  match r with
  | inr a => ret a
  | inl e => raise e
  end.

Definition get_broker : M StreamBroker := λ w, Ret (broker w) w.
Definition put_broker (b : StreamBroker) : M unit := λ w, Ret tt (set_broker b w).

Definition state_of {A} (o : outcome A) : World :=
  match o with
  | Ret _ w => w
  | Raise _ w => w
  | Blocked w => w
  end.

Definition result_of {A} (o : outcome A) : option A :=
  match o with
  | Ret a _ => Some a
  | _ => None
  end.

(** [for x in xs: body(x)]. *)
Fixpoint for_each {A} (xs : list A) (body : A → M unit) : M unit :=
  match xs with
  | [] => ret tt
  | x :: xs' => body x ;;; for_each xs' body
  end.

(** ** The lock *)

(** [threading.Lock]: [acquire] on a held lock waits, whoever holds it. *)
Definition acquire : M unit := λ w,
  if lock (broker w) then Blocked w
  else Ret tt (set_broker (set_lock true (broker w)) w).

Definition release : M unit := λ w,
  Ret tt (set_broker (set_lock false (broker w)) w).

(** [with self.lock: body]: the lock is released when the body returns
    and when it raises. *)
Definition with_lock {A} (body : M A) : M A := λ w,
  match acquire w with
  | Ret _ w1 =>
      match body w1 with
      | Ret a w2 => Ret a (state_of (release w2))
      | Raise e w2 => Raise e (state_of (release w2))
      | Blocked w2 => Blocked w2
      end
  | Raise e w1 => Raise e w1
  | Blocked w1 => Blocked w1
  end.

(** ** Sample data

    A stand-in for the process's string hash (0 on the empty string,
    as CPython's is), a clock, and a few small worlds. *)

Definition sample_hash (s : string) : Z := Z.of_nat (String.length s).
Definition sample_clock (n : nat) : Z := 1700000000 + Z.of_nat n.

Definition sample_message (name k : string) (p : Z) : StreamMessage :=
  mkStreamMessage name k [] 0 p.

(** A message for a topic the new broker has never heard of. *)
Definition unknown_topic_world : World :=
  mkWorld [sample_message "t" "k" 0] new_broker [].

(** Topic [t] with two empty partitions; four messages built for it,
    with keys of length 1, 2, 1 and 0. *)
Definition two_partitions : World :=
  mkWorld
    [sample_message "t" "a" 0; sample_message "t" "bb" 0;
     sample_message "t" "c" 0; sample_message "t" "" 0]
    (mkStreamBroker {["t" := mkTopicData 2 [[]; []]]} {["t" := []]} false)
    [].

(** Topic [t] with one partition that holds three messages. *)
Definition backlog : World :=
  mkWorld
    [sample_message "t" "a" 0; sample_message "t" "b" 0; sample_message "t" "c" 0]
    (mkStreamBroker {["t" := mkTopicData 1 [[0; 1; 2]%nat]]} {["t" := []]} false)
    [].

(** Topic [t] with one message in each of its two partitions. *)
Definition two_pending : World :=
  mkWorld
    [sample_message "t" "oops" 0; sample_message "t" "a" 1]
    (mkStreamBroker {["t" := mkTopicData 2 [[0%nat]; [1%nat]]]} {["t" := []]} false)
    [].

(** [two_pending] once [consume] has taken both messages, and once the
    handler has then been called on the first. *)
Definition two_consumed : World :=
  mkWorld (heap two_pending)
    (mkStreamBroker {["t" := mkTopicData 2 [[]; []]]} {["t" := []]} false)
    [].

Definition two_faulted : World :=
  mkWorld (heap two_pending) (broker two_consumed) [0%nat].

(** A handler that raises on the messages whose key is ["oops"]. *)
Definition fragile_handler (message : nat) : M unit := λ w,
  match heap w !! message with
  | Some m => if String.eqb (key m) "oops" then Raise UserError w else Ret tt w
  | None => Raise AttributeError w
  end.

(** A handler that calls [sys.exit()] on whatever it is handed. *)
Definition exiting_handler (message : nat) : M unit := raise SystemExit.

(** An input topic with one message, of payload [{"value": v}], and an
    output topic created with [count] partitions, as [main] wires
    [user_events] to [processed_events]. *)
Definition intake (v : pyval) (count : Z) : World :=
  mkWorld
    [mkStreamMessage "user_events" "user_7" [("value", v)] 0 0]
    (mkStreamBroker
       {["user_events" := mkTopicData 1 [[0%nat]];
         "processed_events" := mkTopicData count (replicate (Z.to_nat count) [])]}
       {["user_events" := []; "processed_events" := []]}
       false)
    [].

(** Topic [t] with two empty partitions and two messages of the same
    key. *)
Definition same_key_world : World :=
  mkWorld
    [sample_message "t" "a" 0; sample_message "t" "a" 0]
    (mkStreamBroker {["t" := mkTopicData 2 [[]; []]]} {["t" := []]} false)
    [].

(** Topic [t] as [create_topic("t", -2)] makes it, and a message for
    it. *)
Definition negative_topic_world : World :=
  mkWorld
    [sample_message "t" "abc" 0]
    (mkStreamBroker {["t" := mkTopicData (-2) []]} {["t" := []]} false)
    [].

(** Topic [t] as [create_topic("t", count)] makes it, and a message
    for it with the empty key that was built with [partition=7]. *)
Definition stale_partition (count : Z) : World :=
  mkWorld
    [sample_message "t" "" 7]
    (mkStreamBroker
       {["t" := mkTopicData count (replicate (Z.to_nat count) [])]}
       {["t" := []]}
       false)
    [].

(** ** The operations

    [hash] is Python's built-in hash on the message keys (fixed for the
    life of the process); [clock n] is the reading of [datetime.now()]
    taken when the [n]-th message object is constructed. *)

Section Operations.

Variable hash : string → Z.
Variable clock : nat → Z.

(** Reading a message object through its reference; a reference to
    anything else has no [topic], [key] or [value] attribute. *)
Definition get_message (message : addr) : M StreamMessage := λ w,
  match heap w !! message with
  | Some m => Ret m w
  | None => Raise AttributeError w
  end.

(** [self.topics[name]]. *)
Definition topic_entry (name : string) : M TopicData := λ w,
  match topics (broker w) !! name with
  | Some td => Ret td w
  | None => Raise KeyError w
  end.

(** [StreamBroker.create_topic]. *)
Definition create_topic (name : string) (count : Z) : M unit :=
  with_lock (
    let* b := get_broker in
    match topics b !! name with
    | Some _ => ret tt
    | None =>
        put_broker
          (mkStreamBroker
             (<[name := mkTopicData count (replicate (Z.to_nat count) [])]> (topics b))
             (<[name := []]> (consumers b))
             (lock b))
    end).

(** [message.partition = partition]: an update of the shared object. *)
Definition assign_partition (message : addr) (p : Z) : M unit := λ w,
  match heap w !! message with
  | Some m => Ret tt (set_heap (<[message := with_partition p m]> (heap w)) w)
  | None => Raise AttributeError w
  end.

(** [self.topics[name]['messages'][p].append(message)]. *)
Definition append_message (name : string) (p : Z) (message : addr) : M unit :=
  let* td := topic_entry name in
  let* i := lift (py_index (length (messages td)) p) in
  let* b := get_broker in
  put_broker
    (set_topics
       (<[name := mkTopicData (partitions td)
                    (alter (λ log, log ++ [message]) i (messages td))]> (topics b))
       b).

(** [StreamBroker.publish]. *)
Definition publish (message : addr) : M bool :=
  try_except
    (with_lock (
       let* m := get_message message in
       let* b := get_broker in
       (match topics b !! topic m with
        | Some _ => ret tt
        | None => create_topic (topic m) 1
        end) ;;;
       let* td := topic_entry (topic m) in
       let* p := lift (py_mod (hash (key m)) (partitions td)) in
       assign_partition message p ;;;
       append_message (topic m) p message ;;;
       ret true))
    (λ _, ret false).

(** The sweep of [consume] over the partition logs: [acc] is the list
    [messages] built so far; the result pairs it with the logs as the
    [del] statements leave them. *)
Fixpoint consume_partitions (max_messages : Z) (logs : list (list addr))
    (acc : list addr) : list addr * list (list addr) :=
  match logs with
  | [] => (acc, [])
  | partition_messages :: rest =>
      match partition_messages with
      | [] =>
          let '(out, rest') := consume_partitions max_messages rest acc in
          (out, partition_messages :: rest')
      | _ :: _ =>
          let consumed := py_slice_to partition_messages max_messages in
          let '(out, rest') :=
            consume_partitions max_messages rest (acc ++ consumed) in
          (out, drop (length consumed) partition_messages :: rest')
      end
  end.

(** [StreamBroker.consume].  Nothing inside the [with] block can raise,
    so the [except] clause only ever sees an empty [messages]. *)
Definition consume (name : string) (group_id : string) (max_messages : Z)
    : M (list addr) :=
  try_except
    (with_lock (
       let* b := get_broker in
       match topics b !! name with
       | Some td =>
           let '(out, logs) := consume_partitions max_messages (messages td) [] in
           put_broker
             (set_topics (<[name := mkTopicData (partitions td) logs]> (topics b)) b) ;;;
           ret out
       | None => ret []
       end))
    (λ _, ret []).

(** [StreamBroker.add_consumer]; it does not take the lock. *)
Definition add_consumer (name : string) (consumer : cref) : M unit :=
  let* b := get_broker in
  (match consumers b !! name with
   | Some _ => ret tt
   | None => put_broker (set_consumers (<[name := []]> (consumers b)) b)
   end) ;;;
  let* b := get_broker in
  put_broker
    (set_consumers
       (<[name := default [] (consumers b !! name) ++ [consumer]]> (consumers b))
       b).

(** The entry [get_topic_stats] reports for one topic:
    partitions, total pending messages, registered consumers. *)
Definition topic_stats (b : StreamBroker) (name : string) : option (Z * nat * nat) :=
  match topics b !! name with
  | Some td =>
      Some (partitions td,
            sum_list (length <$> messages td),
            length (default [] (consumers b !! name)))
  | None => None
  end.

(** [StreamMessage(...)]: a new object, with the default partition. *)
Definition new_message (name k : string) (v : pydict) : M addr := λ w,
  Ret (length (heap w))
      (set_heap (heap w ++ [mkStreamMessage name k v (clock (length (heap w))) 0]) w).

(** [StreamProducer.send]. *)
Definition send (name k : string) (v : pydict) : M bool :=
  try_except
    (let* message := new_message name k v in
     publish message)
    (λ _, ret false).

(** ** Consumers *)

(** [StreamConsumer]: the object's identity (the broker registers the
    object itself), its group, its subscriptions, the running flag and
    the handler ([None] until [set_message_handler]). *)
Record StreamConsumer := mkStreamConsumer {
  self_ref : cref;
  group_id : string;
  subscribed_topics : gset string;
  running : bool;
  message_handler : option (addr → M unit)
}.

Definition StreamConsumer_init (self : cref) (group : string) : StreamConsumer :=
  mkStreamConsumer self group ∅ false None.

Definition set_message_handler (handler : addr → M unit) (c : StreamConsumer)
    : StreamConsumer :=
  mkStreamConsumer (self_ref c) (group_id c) (subscribed_topics c) (running c)
    (Some handler).

Definition set_running (r : bool) (c : StreamConsumer) : StreamConsumer :=
  mkStreamConsumer (self_ref c) (group_id c) (subscribed_topics c) r
    (message_handler c).

(** [StreamConsumer.subscribe]: the set is updated, then the consumer is
    added to the broker once per element of [names]. *)
Definition subscribe (c : StreamConsumer) (names : list string) : M StreamConsumer :=
  let c' :=
    mkStreamConsumer (self_ref c) (group_id c)
      (subscribed_topics c ∪ list_to_set names) (running c) (message_handler c) in
  for_each names (λ name, add_consumer name (self_ref c)) ;;;
  ret c'.

(** The body of [for message in messages]: the handler, when one is
    set, is called on the message; the call is recorded in [handled]. *)
Definition handle (c : StreamConsumer) (message : addr) : M unit :=
  match message_handler c with
  | Some handler =>
      (λ w, Ret tt (set_handled (handled w ++ [message]) w)) ;;;
      handler message
  | None => ret tt
  end.

(** What one sweep does for the topics [names], in that order. *)
Definition sweep (c : StreamConsumer) (names : list string) : M unit :=
  for_each names (λ name,
    let* batch := consume name (group_id c) 10 in
    for_each batch (handle c)).

(** One iteration of the [while self.running] loop of
    [start_consuming]: the [try] covers the whole sweep over the
    subscribed topics (and the sleep that follows it).  The topics are
    visited in the order the set yields them, which is some fixed
    order; [elements] stands for it. *)
Definition poll_once (c : StreamConsumer) : M unit :=
  try_except (sweep c (elements (subscribed_topics c))) (λ _, ret tt).

(** [start_consuming], for as many iterations as the flag stays set. *)
Fixpoint poll_loop (c : StreamConsumer) (iterations : nat) : M unit :=
  match iterations with
  | O => ret tt
  | S n => poll_once c ;;; poll_loop c n
  end.

Definition start_consuming (c : StreamConsumer) (iterations : nat) : M StreamConsumer :=
  poll_loop (set_running true c) iterations ;;;
  ret (set_running true c).

(** ** Processors *)

(** A transform is user code: it returns a payload or raises. *)
Definition call_transform (transform_func : pydict → exn + pydict) (v : pydict)
    : M pydict :=
  lift (transform_func v).

(** The closure [message_handler] that [add_processor] builds. *)
Definition processor_handler (output_topic : string)
    (transform_func : pydict → exn + pydict) (message : addr) : M unit :=
  try_except
    (let* m := get_message message in
     let* transformed_data := call_transform transform_func (value m) in
     send output_topic (key m) transformed_data ;;;
     ret tt)
    (λ _, ret tt).

(** [StreamProcessor.add_processor]: the consumer it builds and
    subscribes; the background thread then runs [start_consuming] on
    it.  (The entry in [self.processors] is bookkeeping for
    [stop_all_processors] only.) *)
Definition add_processor (self : cref) (name input_topic output_topic : string)
    (transform_func : pydict → exn + pydict) : M StreamConsumer :=
  subscribe
    (set_message_handler (processor_handler output_topic transform_func)
       (StreamConsumer_init self ("processor_" +:+ name)))
    [input_topic].

(** [aggregate_events] of [main]; [processed_at] is the ISO string of
    the clock reading. *)
Definition aggregate_events (processed_at : string) (data : pydict)
    : exn + pydict :=
  match py_mul_float (default (PyInt 0) (dict_get "value" data)) 1.5 with
  | inr score =>
      inr (dict_set "event_score" score
             (dict_set "processed_at" (PyStr processed_at) data))
  | inl e => inl e
  end.

(** ** Histories of operations *)

(** The calls a client thread can make on the system. *)
Inductive op :=
  | CreateTopic (name : string) (count : Z)
  | Publish (message : addr)
  | Consume (name group : string) (max_messages : Z)
  | AddConsumer (name : string) (consumer : cref)
  | Send (name k : string) (v : pydict)
  | Process (output_topic : string) (transform_func : pydict → exn + pydict)
            (message : addr).

Definition run_op (o : op) : M unit :=
  match o with
  | CreateTopic name count => create_topic name count
  | Publish message => publish message ;;; ret tt
  | Consume name group max_messages => consume name group max_messages ;;; ret tt
  | AddConsumer name consumer => add_consumer name consumer
  | Send name k v => send name k v ;;; ret tt
  | Process output_topic transform_func message =>
      processor_handler output_topic transform_func message
  end.

Definition run_ops (ops : list op) : M unit := for_each ops run_op.

(** [n] successive calls of [consume] with the same arguments; the
    batches are returned in call order. *)
Fixpoint consume_times (n : nat) (name group : string) (max_messages : Z)
    : M (list (list addr)) :=
  match n with
  | O => ret []
  | S n' =>
      let* batch := consume name group max_messages in
      let* batches := consume_times n' name group max_messages in
      ret (batch :: batches)
  end.

(** ** Statistics, batches and the processor registry *)

(** [StreamBroker.get_topic_stats]: under the lock, one entry per topic
    of [self.topics] with its partition count, the total length of its
    logs and the length of [self.consumers.get(topic, [])]. *)
Definition get_topic_stats : M (gmap string (Z * nat * nat)) :=
  with_lock (
    let* b := get_broker in
    ret (map_imap
           (λ name data,
              Some (partitions data,
                    sum_list (length <$> messages data),
                    length (default [] (consumers b !! name))))
           (topics b))).

(** [StreamProducer.send_batch]: the loop over [enumerate(messages)],
    from index [i] on, with the count so far; the key of message [i] is
    [f"key_{i}"]. *)
Fixpoint send_batch_from (i : nat) (name : string) (msgs : list pydict)
    (sent_count : nat) : M nat :=
  match msgs with
  | [] => ret sent_count
  | msg :: rest =>
      let* sent := send name ("key_" +:+ pretty i) msg in
      send_batch_from (S i) name rest (if sent then S sent_count else sent_count)
  end.

Definition send_batch (name : string) (msgs : list pydict) : M nat :=
  send_batch_from 0 name msgs 0.

(** An entry of [StreamProcessor.processors]: the consumer object and
    the two topic names (the producer of the entry has no state). *)
Record ProcessorEntry := mkProcessorEntry {
  entry_consumer : cref;
  entry_input_topic : string;
  entry_output_topic : string
}.

(** The consumer objects, by identity, and the [processors] dict of a
    [StreamProcessor]. *)
Record Registry := mkRegistry {
  consumer_objects : gmap cref StreamConsumer;
  processors : gmap string ProcessorEntry
}.

Definition new_registry : Registry := mkRegistry ∅ ∅.

(** [StreamConsumer.stop_consuming], and the first statement of
    [start_consuming] that the consumer's thread executes. *)
Definition stop_consuming (self : cref) (objs : gmap cref StreamConsumer)
    : gmap cref StreamConsumer :=
  alter (set_running false) self objs.

Definition thread_begins (self : cref) (objs : gmap cref StreamConsumer)
    : gmap cref StreamConsumer :=
  alter (set_running true) self objs.

(** [add_processor] with its bookkeeping: the new consumer object is
    [self], and [self.processors[name]] is (re)bound to its entry. *)
Definition register_processor (self : cref) (name input_topic output_topic : string)
    (transform_func : pydict → exn + pydict) (r : Registry) : M Registry :=
  let* consumer :=
    add_processor self name input_topic output_topic transform_func in
  ret (mkRegistry
         (<[self := consumer]> (consumer_objects r))
         (<[name := mkProcessorEntry self input_topic output_topic]> (processors r))).

(** [StreamProcessor.stop_all_processors]. *)
Definition stop_all_processors (r : Registry) : Registry :=
  mkRegistry
    (map_fold (λ _ processor objs, stop_consuming (entry_consumer processor) objs)
       (consumer_objects r) (processors r))
    (processors r).

(** The setup of [main]: three topics and the [event_aggregator]
    processor, whose consumer object is [self]. *)
Definition main_setup (self : cref) (processed_at : string) : M Registry :=
  create_topic "user_events" 3 ;;;
  create_topic "sensor_data" 2 ;;;
  create_topic "processed_events" 2 ;;;
  register_processor self "event_aggregator" "user_events" "processed_events"
    (aggregate_events processed_at) new_registry.

(** ** Invariants *)

(** The shape [create_topic] gives a topic: as many logs as
    [range(partitions)] has elements. *)
Definition topic_wf (td : TopicData) : Prop :=
  length (messages td) = Z.to_nat (partitions td).

Definition broker_wf (b : StreamBroker) : Prop :=
  ∀ name td, topics b !! name = Some td → topic_wf td.

(** ** Auxiliary notions for the statements *)

(** The world a successful [publish] leaves. *)
Definition published (a : addr) (m : StreamMessage) (td : TopicData)
    (p : Z) (i : nat) (w : World) : World :=
  mkWorld (<[a := with_partition p m]> (heap w))
    (set_topics
       (<[topic m := mkTopicData (partitions td)
                       (alter (λ log, log ++ [a]) i (messages td))]>
          (topics (broker w)))
       (broker w))
    (handled w).

(** What [consume] takes from one log, and what it leaves there. *)
Definition taken (max_messages : Z) (log : list addr) : list addr :=
  py_slice_to log max_messages.

Definition left_over (max_messages : Z) (log : list addr) : list addr :=
  drop (length (py_slice_to log max_messages)) log.

(** A message is settled once its partition is the one its key routes
    to in its (existing) topic. *)
Definition settled (w : World) (a : addr) : Prop :=
  ∃ m td, heap w !! a = Some m ∧
          topics (broker w) !! topic m = Some td ∧
          py_mod (hash (key m)) (partitions td) = inr (partition m).

(** [evolves w w']: a topic of [w] is still there with its partition
    count and number of logs; a message object of [w] is still there
    and differs at most in its partition; a settled message is
    unchanged; the shape of the topics is kept. *)
Definition evolves (w w' : World) : Prop :=
  (∀ name td, topics (broker w) !! name = Some td →
     ∃ td', topics (broker w') !! name = Some td' ∧
            partitions td' = partitions td ∧
            length (messages td') = length (messages td)) ∧
  (∀ a m, heap w !! a = Some m →
     ∃ p, heap w' !! a = Some (with_partition p m)) ∧
  (∀ a, settled w a → heap w' !! a = heap w !! a) ∧
  (broker_wf (broker w) → broker_wf (broker w')).

(** The log that [k] successive calls of [consume] leave of [log]. *)
Fixpoint remaining (k : nat) (max_messages : Z) (log : list addr) : list addr :=
  match k with
  | O => log
  | S k' => remaining k' max_messages (left_over max_messages log)
  end.

(** [publish] on each message of a list, in order. *)
Definition publish_each (l : list addr) : M unit :=
  for_each l (λ a, publish a ;;; ret tt).

(** The index of the log a message goes to in a topic of [count]
    partitions. *)
Definition route (h : list StreamMessage) (count : Z) (a : addr) : nat :=
  match h !! a with
  | Some m => Z.to_nat (hash (key m) mod count)
  | None => O
  end.

(** The output topic exists with [count] partitions and nobody holds
    the lock. *)
Definition pipeline_ready (output_topic : string) (count : Z) (w : World) : Prop :=
  lock (broker w) = false ∧
  ∃ td, topics (broker w) !! output_topic = Some td ∧
        partitions td = count ∧
        length (messages td) = Z.to_nat count.

(** The message object [x] is in log [i] of the topic. *)
Definition stored (w : World) (name : string) (i : nat) (x : addr) : Prop :=
  ∃ td log, topics (broker w) !! name = Some td ∧
            messages td !! i = Some log ∧
            x ∈ log.

(** The operation reaches [publish] with a message whose topic the
    broker does not know. *)
Definition hits_unknown_topic (w : World) (o : op) : Prop :=
  match o with
  | Publish a =>
      ∃ m, heap w !! a = Some m ∧ topics (broker w) !! topic m = None
  | Send name _ _ => topics (broker w) !! name = None
  | Process output_topic transform_func a =>
      ∃ m v, heap w !! a = Some m ∧
             transform_func (value m) = inr v ∧
             topics (broker w) !! output_topic = None
  | _ => False
  end.

(** The operation sends only to topics of the set [T], and every
    message object is of a topic of [T]. *)
Definition sends_within (T : gset string) (o : op) : Prop :=
  match o with
  | Send name _ _ => name ∈ T
  | Process output_topic _ _ => output_topic ∈ T
  | _ => True
  end.

Definition heap_within (T : gset string) (w : World) : Prop :=
  ∀ a m, heap w !! a = Some m → topic m ∈ T.

(** The transform of a processor step raises nothing but
    [Exception]s. *)
Definition faults_caught (o : op) : Prop :=
  match o with
  | Process _ transform_func _ =>
      ∀ v e, transform_func v = inl e → is_Exception e = true
  | _ => True
  end.

(** ** How each broker operation evaluates *)

Ltac open_world w :=
  let h := fresh "h" in
  let ts := fresh "ts" in
  let cs := fresh "cs" in
  let lk := fresh "lk" in
  let hd := fresh "hd" in
  destruct w as [h [ts cs lk] hd]; simpl in *; subst.

Ltac run :=
  unfold publish, consume, create_topic, send, new_message, append_message,
    assign_partition, topic_entry, get_message, add_consumer, try_except,
    with_lock, acquire, release, bind, ret, raise, lift, get_broker,
    put_broker, state_of, set_broker, set_heap, set_handled, set_topics,
    set_consumers, set_lock;
  simpl.

(** What the arithmetic of [publish] can raise. *)
Lemma py_mod_raises a b e : py_mod a b = inl e → e = ZeroDivisionError.
Proof. unfold py_mod. destruct (b =? 0); by intros [=]. Qed.

Lemma py_index_raises len i e : py_index len i = inl e → e = IndexError.
Proof.
  unfold py_index.
  destruct ((0 <=? i) && (i <? Z.of_nat len)); [done|].
  destruct ((- Z.of_nat len <=? i) && (i <? 0)); by intros [=].
Qed.

Lemma create_topic_locked name count w :
  lock (broker w) = true → create_topic name count w = Blocked w.
Proof. intros Hl. open_world w. by run. Qed.

Lemma create_topic_known name count w td :
  lock (broker w) = false →
  topics (broker w) !! name = Some td →
  create_topic name count w = Ret tt w.
Proof. intros Hl Ht. open_world w. run. by rewrite Ht. Qed.

Lemma create_topic_fresh name count w :
  lock (broker w) = false →
  topics (broker w) !! name = None →
  create_topic name count w =
    Ret tt
      (set_broker
         (mkStreamBroker
            (<[name := mkTopicData count (replicate (Z.to_nat count) [])]>
               (topics (broker w)))
            (<[name := []]> (consumers (broker w)))
            false)
         w).
Proof. intros Hl Ht. open_world w. run. by rewrite Ht. Qed.

Lemma publish_locked a w :
  lock (broker w) = true → publish a w = Blocked w.
Proof. intros Hl. open_world w. by run. Qed.

Lemma publish_dangling a w :
  lock (broker w) = false → heap w !! a = None → publish a w = Ret false w.
Proof. intros Hl Ha. open_world w. run. by rewrite Ha. Qed.

Lemma publish_unknown a m w :
  lock (broker w) = false →
  heap w !! a = Some m →
  topics (broker w) !! topic m = None →
  publish a w = Blocked (set_broker (set_lock true (broker w)) w).
Proof. intros Hl Ha Ht. open_world w. run. rewrite Ha. simpl. by rewrite Ht. Qed.

Lemma publish_known a m td w :
  lock (broker w) = false →
  heap w !! a = Some m →
  topics (broker w) !! topic m = Some td →
  publish a w =
    match py_mod (hash (key m)) (partitions td) with
    | inl _ => Ret false w
    | inr p =>
        match py_index (length (messages td)) p with
        | inl _ => Ret false (set_heap (<[a := with_partition p m]> (heap w)) w)
        | inr i => Ret true (published a m td p i w)
        end
    end.
Proof.
  intros Hl Ha Ht. open_world w. run. rewrite Ha. simpl. rewrite Ht. simpl.
  rewrite Ht. simpl.
  destruct (py_mod (hash (key m)) (partitions td)) as [e|p] eqn:Hp; simpl.
  { by rewrite (py_mod_raises _ _ _ Hp). }
  rewrite Ha. simpl. rewrite Ht. simpl.
  destruct (py_index (length (messages td)) p) as [e|i] eqn:Hi; simpl; [|done].
  by rewrite (py_index_raises _ _ _ Hi).
Qed.

Lemma py_slice_to_nil {A} (stop : Z) : py_slice_to (@nil A) stop = [].
Proof. unfold py_slice_to. destruct (stop <? 0); by rewrite take_nil. Qed.

Lemma consume_partitions_spec max_messages logs acc :
  consume_partitions max_messages logs acc =
    (acc ++ concat (taken max_messages <$> logs), left_over max_messages <$> logs).
Proof.
  revert acc. induction logs as [|log logs IH]; intros acc; simpl.
  - by rewrite app_nil_r.
  - destruct log as [|x log].
    + rewrite IH. unfold taken at 2, left_over at 2.
      by rewrite py_slice_to_nil.
    + rewrite IH. unfold taken at 2, left_over at 2.
      by rewrite <- app_assoc.
Qed.

Lemma consume_locked name group max_messages w :
  lock (broker w) = true → consume name group max_messages w = Blocked w.
Proof. intros Hl. open_world w. by run. Qed.

Lemma consume_unknown name group max_messages w :
  lock (broker w) = false →
  topics (broker w) !! name = None →
  consume name group max_messages w = Ret [] w.
Proof. intros Hl Ht. open_world w. run. by rewrite Ht. Qed.

Lemma consume_known name group max_messages w td :
  lock (broker w) = false →
  topics (broker w) !! name = Some td →
  consume name group max_messages w =
    Ret (concat (taken max_messages <$> messages td))
      (set_broker
         (set_topics
            (<[name := mkTopicData (partitions td)
                         (left_over max_messages <$> messages td)]>
               (topics (broker w)))
            (broker w))
         w).
Proof.
  intros Hl Ht. open_world w. run. rewrite Ht.
  rewrite consume_partitions_spec. by simpl.
Qed.

(** ** What no operation changes *)

Lemma with_partition_id m : with_partition (partition m) m = m.
Proof. by destruct m. Qed.

Lemma with_partition_twice p q m :
  with_partition p (with_partition q m) = with_partition p m.
Proof. done. Qed.

Lemma evolves_refl w : evolves w w.
Proof.
  repeat split; try done.
  - intros name td Ht. by exists td.
  - intros a m Ha. exists (partition m). by rewrite with_partition_id.
Qed.

Lemma settled_evolves w w' a : evolves w w' → settled w a → settled w' a.
Proof.
  intros (Ht & _ & Hs & _) Hsa. pose proof (Hs a Hsa) as Heq.
  destruct Hsa as (m & td & Ha & Htd & Hp).
  destruct (Ht _ _ Htd) as (td' & Htd' & Hparts & _).
  exists m, td'. rewrite Heq, Hparts. done.
Qed.

Lemma evolves_trans w1 w2 w3 : evolves w1 w2 → evolves w2 w3 → evolves w1 w3.
Proof.
  intros H12 H23. pose proof (λ a, settled_evolves w1 w2 a H12) as Hset.
  destruct H12 as (Ht1 & Hh1 & Hs1 & Hw1), H23 as (Ht2 & Hh2 & Hs2 & Hw2).
  repeat split.
  - intros name td Htd.
    destruct (Ht1 _ _ Htd) as (td1 & Htd1 & Hp1 & Hl1).
    destruct (Ht2 _ _ Htd1) as (td2 & Htd2 & Hp2 & Hl2).
    exists td2. split; [done|]. split; congruence.
  - intros a m Ha.
    destruct (Hh1 _ _ Ha) as (p & Ha1).
    destruct (Hh2 _ _ Ha1) as (q & Ha2).
    exists q. by rewrite Ha2.
  - intros a Hsa. rewrite <- (Hs1 a Hsa). apply Hs2. by apply Hset.
  - auto.
Qed.

(** Changes of the lock, of the consumer registry and of the handler
    history keep everything [evolves] speaks of. *)
Lemma evolves_same_core w w' :
  heap w' = heap w →
  topics (broker w') = topics (broker w) →
  evolves w w'.
Proof.
  intros Hh Ht. unfold evolves, settled, broker_wf. rewrite Hh, Ht.
  apply (evolves_refl w).
Qed.

Lemma evolves_assign w a m p :
  heap w !! a = Some m →
  (∀ td, topics (broker w) !! topic m = Some td →
         py_mod (hash (key m)) (partitions td) = inr (partition m) →
         p = partition m) →
  evolves w (set_heap (<[a := with_partition p m]> (heap w)) w).
Proof.
  intros Ha Hp. pose proof (lookup_lt_Some _ _ _ Ha) as Hlt.
  repeat split; simpl; try done.
  - intros name td Ht. by exists td.
  - intros a0 m0 Ha0. destruct (decide (a0 = a)) as [->|Hne].
    + rewrite list_lookup_insert_eq by done.
      assert (m0 = m) as -> by congruence. by exists p.
    + rewrite list_lookup_insert_ne by done.
      exists (partition m0). by rewrite with_partition_id.
  - intros a0 (m0 & td0 & Ha0 & Ht0 & Hp0).
    destruct (decide (a0 = a)) as [->|Hne].
    + assert (m0 = m) as -> by congruence.
      rewrite (Hp td0 Ht0 Hp0).
      rewrite with_partition_id. by rewrite list_insert_id.
    + by rewrite list_lookup_insert_ne.
Qed.

Lemma evolves_logs w name td logs :
  topics (broker w) !! name = Some td →
  length logs = length (messages td) →
  evolves w
    (set_broker
       (set_topics (<[name := mkTopicData (partitions td) logs]> (topics (broker w)))
          (broker w))
       w).
Proof.
  intros Ht Hlen. unfold set_broker, set_topics. repeat split; simpl.
  - intros name0 td0 Ht0. destruct (decide (name = name0)) as [->|Hne].
    + rewrite lookup_insert_eq. eexists. split; [done|]. simpl.
      assert (td0 = td) as -> by congruence. done.
    + rewrite lookup_insert_ne by done. by exists td0.
  - intros a m Ha. exists (partition m). by rewrite with_partition_id.
  - unfold broker_wf. simpl.
    intros Hwf name0 td0. destruct (decide (name = name0)) as [->|Hne].
    + rewrite lookup_insert_eq. intros [= <-]. unfold topic_wf. simpl.
      rewrite Hlen. by apply (Hwf name0).
    + rewrite lookup_insert_ne by done. apply Hwf.
Qed.

Lemma evolves_new_topic w name count cs lk :
  topics (broker w) !! name = None →
  evolves w
    (set_broker
       (mkStreamBroker
          (<[name := mkTopicData count (replicate (Z.to_nat count) [])]>
             (topics (broker w)))
          cs lk)
       w).
Proof.
  intros Ht. unfold set_broker. repeat split; simpl.
  - intros name0 td0 Ht0. assert (name ≠ name0) by congruence.
    rewrite lookup_insert_ne by done. by exists td0.
  - intros a m Ha. exists (partition m). by rewrite with_partition_id.
  - unfold broker_wf. simpl.
    intros Hwf name0 td0. destruct (decide (name = name0)) as [->|Hne].
    + rewrite lookup_insert_eq. intros [= <-]. unfold topic_wf. simpl.
      by rewrite length_replicate.
    + rewrite lookup_insert_ne by done. apply Hwf.
Qed.

Lemma evolves_alloc w m :
  evolves w (set_heap (heap w ++ [m]) w).
Proof.
  unfold set_heap. repeat split; simpl; try done.
  - intros name td Ht. by exists td.
  - intros a m0 Ha. exists (partition m0).
    rewrite with_partition_id. by apply lookup_app_l_Some.
  - intros a (m0 & td & Ha & _). rewrite Ha. by apply lookup_app_l_Some.
Qed.

(** Each operation as one case analysis on the world it starts in. *)
Lemma create_topic_eval name count w :
  create_topic name count w =
    if lock (broker w) then Blocked w
    else match topics (broker w) !! name with
         | Some _ => Ret tt w
         | None =>
             Ret tt
               (set_broker
                  (mkStreamBroker
                     (<[name := mkTopicData count (replicate (Z.to_nat count) [])]>
                        (topics (broker w)))
                     (<[name := []]> (consumers (broker w)))
                     false)
                  w)
         end.
Proof.
  destruct (lock (broker w)) eqn:Hl; [by apply create_topic_locked|].
  destruct (topics (broker w) !! name) eqn:Ht.
  - by eapply create_topic_known.
  - by apply create_topic_fresh.
Qed.

Lemma publish_eval a w :
  publish a w =
    if lock (broker w) then Blocked w
    else match heap w !! a with
         | None => Ret false w
         | Some m =>
             match topics (broker w) !! topic m with
             | None => Blocked (set_broker (set_lock true (broker w)) w)
             | Some td =>
                 match py_mod (hash (key m)) (partitions td) with
                 | inl _ => Ret false w
                 | inr p =>
                     match py_index (length (messages td)) p with
                     | inl _ =>
                         Ret false (set_heap (<[a := with_partition p m]> (heap w)) w)
                     | inr i => Ret true (published a m td p i w)
                     end
                 end
             end
         end.
Proof.
  destruct (lock (broker w)) eqn:Hl; [by apply publish_locked|].
  destruct (heap w !! a) as [m|] eqn:Ha; [|by apply publish_dangling].
  destruct (topics (broker w) !! topic m) as [td|] eqn:Ht.
  - by apply publish_known.
  - by apply (publish_unknown a m).
Qed.

Lemma consume_eval name group max_messages w :
  consume name group max_messages w =
    if lock (broker w) then Blocked w
    else match topics (broker w) !! name with
         | None => Ret [] w
         | Some td =>
             Ret (concat (taken max_messages <$> messages td))
               (set_broker
                  (set_topics
                     (<[name := mkTopicData (partitions td)
                                  (left_over max_messages <$> messages td)]>
                        (topics (broker w)))
                     (broker w))
                  w)
         end.
Proof.
  destruct (lock (broker w)) eqn:Hl; [by apply consume_locked|].
  destruct (topics (broker w) !! name) as [td|] eqn:Ht.
  - by apply consume_known.
  - by apply consume_unknown.
Qed.

Lemma add_consumer_eval name consumer w :
  add_consumer name consumer w =
    Ret tt
      (set_broker
         (set_consumers
            (<[name := default [] (consumers (broker w) !! name) ++ [consumer]]>
               (consumers (broker w)))
            (broker w))
         w).
Proof.
  open_world w. run. destruct (cs !! name) as [l|] eqn:Hc; simpl.
  - by rewrite Hc.
  - rewrite lookup_insert_eq. simpl. by rewrite insert_insert_eq.
Qed.

Lemma publish_never_raises a w e w' : publish a w ≠ Raise e w'.
Proof.
  rewrite publish_eval.
  repeat (case_match; try done).
Qed.

Lemma send_eval name k v w :
  send name k v w =
    publish (length (heap w))
      (set_heap (heap w ++ [mkStreamMessage name k v (clock (length (heap w))) 0]) w).
Proof.
  unfold send, try_except, bind, new_message.
  destruct (publish _ _) as [b w'|e w'|w'] eqn:Hp; try done.
  by apply publish_never_raises in Hp.
Qed.

Lemma processor_handler_eval output_topic transform_func a w :
  processor_handler output_topic transform_func a w =
    match heap w !! a with
    | None => Ret tt w
    | Some m =>
        match transform_func (value m) with
        | inl e => if is_Exception e then Ret tt w else Raise e w
        | inr v =>
            match publish (length (heap w))
                    (set_heap
                       (heap w ++
                        [mkStreamMessage output_topic (key m) v
                           (clock (length (heap w))) 0])
                       w) with
            | Ret _ w' => Ret tt w'
            | Raise e w' => Raise e w'
            | Blocked w' => Blocked w'
            end
        end
    end.
Proof.
  unfold processor_handler, try_except, bind, get_message, call_transform.
  destruct (heap w !! a) as [m|]; [|done].
  destruct (transform_func (value m)) as [e|v]; [done|].
  simpl. unfold ret. rewrite send_eval.
  match goal with
  | |- context [publish ?b ?w1] =>
      pose proof (publish_never_raises b w1) as Hnr;
      destruct (publish b w1) as [sent w'|e w'|w']; [done| |done]
  end.
  by destruct (Hnr e w').
Qed.

Lemma create_topic_evolves name count w :
  evolves w (state_of (create_topic name count w)).
Proof.
  rewrite create_topic_eval.
  destruct (lock (broker w)); simpl; [apply evolves_refl|].
  destruct (topics (broker w) !! name) eqn:Ht; simpl; [apply evolves_refl|].
  by apply evolves_new_topic.
Qed.

Lemma published_evolves a m td p i w :
  heap w !! a = Some m →
  topics (broker w) !! topic m = Some td →
  py_mod (hash (key m)) (partitions td) = inr p →
  evolves w (published a m td p i w).
Proof.
  intros Ha Ht Hp.
  eapply evolves_trans.
  - apply (evolves_assign w a m p Ha). intros td0 Ht0 Hp0. congruence.
  - apply (evolves_logs (set_heap (<[a := with_partition p m]> (heap w)) w)
             (topic m) td); [done|].
    by rewrite length_alter.
Qed.

Lemma publish_evolves a w : evolves w (state_of (publish a w)).
Proof.
  rewrite publish_eval.
  destruct (lock (broker w)); simpl; [apply evolves_refl|].
  destruct (heap w !! a) as [m|] eqn:Ha; simpl; [|apply evolves_refl].
  destruct (topics (broker w) !! topic m) as [td|] eqn:Ht; simpl;
    [|by apply evolves_same_core].
  destruct (py_mod (hash (key m)) (partitions td)) as [e|p] eqn:Hp; simpl;
    [apply evolves_refl|].
  destruct (py_index (length (messages td)) p) as [e|i]; simpl.
  - apply (evolves_assign w a m p Ha). intros td0 Ht0 Hp0. congruence.
  - by apply published_evolves.
Qed.

Lemma consume_evolves name group max_messages w :
  evolves w (state_of (consume name group max_messages w)).
Proof.
  rewrite consume_eval.
  destruct (lock (broker w)); simpl; [apply evolves_refl|].
  destruct (topics (broker w) !! name) as [td|] eqn:Ht; simpl; [|apply evolves_refl].
  apply evolves_logs; [done|]. by rewrite length_fmap.
Qed.

Lemma add_consumer_evolves name consumer w :
  evolves w (state_of (add_consumer name consumer w)).
Proof. rewrite add_consumer_eval. by apply evolves_same_core. Qed.

Lemma send_evolves name k v w : evolves w (state_of (send name k v w)).
Proof.
  rewrite send_eval. eapply evolves_trans; [apply evolves_alloc|].
  apply publish_evolves.
Qed.

Lemma processor_handler_evolves output_topic transform_func a w :
  evolves w (state_of (processor_handler output_topic transform_func a w)).
Proof.
  rewrite processor_handler_eval.
  destruct (heap w !! a) as [m|]; [|apply evolves_refl].
  destruct (transform_func (value m)) as [e|v].
  { destruct (is_Exception e); apply evolves_refl. }
  pose proof (send_evolves output_topic (key m) v w) as Hs.
  rewrite send_eval in Hs. by destruct (publish _ _).
Qed.

Lemma bind_ret_state {A} (c : M A) w :
  state_of ((c ;;; ret tt) w) = state_of (c w).
Proof. unfold bind, ret. by destruct (c w). Qed.

Lemma run_op_evolves o w : evolves w (state_of (run_op o w)).
Proof.
  destruct o; simpl; rewrite ?bind_ret_state.
  - apply create_topic_evolves.
  - apply publish_evolves.
  - apply consume_evolves.
  - apply add_consumer_evolves.
  - apply send_evolves.
  - apply processor_handler_evolves.
Qed.

Lemma run_ops_evolves ops w : evolves w (state_of (run_ops ops w)).
Proof.
  revert w. induction ops as [|o ops IH]; intros w; simpl.
  - apply evolves_refl.
  - unfold run_ops in *; simpl. unfold bind at 1.
    pose proof (run_op_evolves o w) as Ho.
    destruct (run_op o w) as [[] w'|e w'|w']; simpl in *; try done.
    eapply evolves_trans; [exact Ho|apply IH].
Qed.

(** An operation that returns leaves the lock as it found it. *)
Lemma run_op_lock o w u w' :
  run_op o w = Ret u w' → lock (broker w') = lock (broker w).
Proof.
  destruct o; simpl.
  - rewrite create_topic_eval.
    repeat (case_match; try done); by intros; simplify_eq.
  - unfold bind, ret. rewrite publish_eval.
    repeat (case_match; try done); by intros; simplify_eq.
  - unfold bind, ret. rewrite consume_eval.
    repeat (case_match; try done); by intros; simplify_eq.
  - rewrite add_consumer_eval. by intros; simplify_eq.
  - unfold bind, ret. rewrite send_eval, publish_eval.
    repeat (case_match; try done); by intros; simplify_eq.
  - rewrite processor_handler_eval.
    destruct (heap w !! message) as [m|]; [|by intros; simplify_eq].
    destruct (transform_func (value m)) as [e|v].
    { destruct (is_Exception e); by intros; simplify_eq. }
    rewrite publish_eval.
    repeat (case_match; try done); by intros; simplify_eq.
Qed.

Lemma run_ops_lock ops w u w' :
  run_ops ops w = Ret u w' → lock (broker w') = lock (broker w).
Proof.
  revert w. induction ops as [|o ops IH]; intros w; unfold run_ops; simpl.
  - unfold ret. by intros; simplify_eq.
  - unfold bind at 1. destruct (run_op o w) as [[] w1|e w1|w1] eqn:Ho; try done.
    intros Hr. rewrite (IH _ Hr). by eapply run_op_lock.
Qed.

(** X17. The shape of the topics is an invariant: whatever message
    objects exist, after every history of operations on a new broker
    each topic has exactly as many logs as [range(partitions)] has
    elements. *)
Lemma broker_wf_reachable objects ops :
  broker_wf (broker (state_of (run_ops ops (mkWorld objects new_broker [])))).
Proof.
  destruct (run_ops_evolves ops (mkWorld objects new_broker [])) as (_ & _ & _ & Hwf).
  apply Hwf. intros name td H. simpl in H. by rewrite lookup_empty in H.
Qed.

(** ** Topic creation *)

(** C3. [create_topic] is idempotent: whatever the first call finds,
    once the name exists a further call with any partition count
    returns normally and leaves the whole world as it is, so the
    partition count and the logs of the topic stay those of its
    creation. *)
Theorem create_topic_idempotent name count count' w :
  lock (broker w) = false →
  ∃ w1, create_topic name count w = Ret tt w1 ∧
        create_topic name count' w1 = Ret tt w1 ∧
        (is_Some (topics (broker w) !! name) → w1 = w) ∧
        (topics (broker w) !! name = None →
         topics (broker w1) !! name =
           Some (mkTopicData count (replicate (Z.to_nat count) []))).
Proof.
  intros Hl. rewrite create_topic_eval, Hl.
  destruct (topics (broker w) !! name) as [td|] eqn:Ht.
  - exists w. split; [done|]. split; [|done].
    by rewrite create_topic_eval, Hl, Ht.
  - eexists. split; [done|]. split; [|split].
    + rewrite create_topic_eval. simpl. by rewrite lookup_insert_eq.
    + by intros [? ?].
    + intros _. simpl. by rewrite lookup_insert_eq.
Qed.

(** C10. A topic can be created with zero partitions, and from then on,
    after any history of operations that ran to completion, publishing
    a message of that topic returns [False] without raising and changes
    nothing. *)
Theorem zero_partition_topic_rejects_publish name w :
  lock (broker w) = false →
  topics (broker w) !! name = None →
  ∃ w1, create_topic name 0 w = Ret tt w1 ∧
        topics (broker w1) !! name = Some (mkTopicData 0 []) ∧
        ∀ ops w2 a m,
          run_ops ops w1 = Ret tt w2 →
          heap w2 !! a = Some m →
          topic m = name →
          publish a w2 = Ret false w2.
Proof.
  intros Hl Ht. eexists. split; [by apply create_topic_fresh|].
  split; [simpl; by rewrite lookup_insert_eq|].
  intros ops w2 a m Hrun Ha Hname.
  pose proof (run_ops_lock _ _ _ _ Hrun) as Hl2.
  match type of Hrun with
  | run_ops _ ?w1 = _ => pose proof (run_ops_evolves ops w1) as Hev
  end.
  rewrite Hrun in Hev. simpl in Hev, Hl2.
  destruct Hev as (Htop & _).
  destruct (Htop name (mkTopicData 0 [])) as (td' & Ht' & Hp & _).
  { simpl. by rewrite lookup_insert_eq. }
  simpl in Hp.
  rewrite publish_eval, Hl2, Ha, Hname, Ht', Hp. done.
Qed.

(** ** Publishing *)

(** C4. The code does not do what the claim says: on a message whose
    topic the broker does not know, [publish] takes the lock and calls
    [create_topic], which waits for that same lock.  The call never
    returns, the topic is not created, the message is not stored, and
    the lock stays held, so that every later locked operation waits
    too. *)
Theorem publish_unknown_topic_blocks a m w :
  lock (broker w) = false →
  heap w !! a = Some m →
  topics (broker w) !! topic m = None →
  ∃ w', publish a w = Blocked w' ∧
        lock (broker w') = true ∧
        topics (broker w') = topics (broker w) ∧
        heap w' = heap w ∧
        (∀ name count, create_topic name count w' = Blocked w') ∧
        (∀ b, publish b w' = Blocked w') ∧
        (∀ name group n, consume name group n w' = Blocked w').
Proof.
  intros Hl Ha Ht. eexists. split; [by apply (publish_unknown a m)|].
  do 3 (split; [done|]). split; [|split]; intros.
  - by apply create_topic_locked.
  - by apply publish_locked.
  - by apply consume_locked.
Qed.

Lemma py_index_in_range len p :
  0 ≤ p < Z.of_nat len → py_index len p = inr (Z.to_nat p).
Proof.
  intros Hp. unfold py_index.
  destruct (0 <=? p) eqn:H1; [|lia].
  destruct (p <? Z.of_nat len) eqn:H2; [done|lia].
Qed.

Lemma py_index_empty p : py_index 0 p = inl IndexError.
Proof.
  unfold py_index. change (Z.of_nat 0) with 0. change (- 0) with 0.
  destruct (Z.leb_spec 0 p), (Z.ltb_spec p 0); simpl; try done; lia.
Qed.

Lemma py_mod_pos a b : 0 < b → py_mod a b = inr (a mod b).
Proof. intros Hb. unfold py_mod. destruct (b =? 0) eqn:H; [lia|done]. Qed.

(** C8, as the code has it.  In an existing topic whose partition
    count is not zero, [publish] assigns partition 0 to a message with
    the empty key, whatever partition the object had: with at least one
    partition the message is accepted and goes to the tail of the first
    log; with a negative count the assignment is made and [publish]
    then returns [False], the topic having no log.  With zero
    partitions nothing is assigned: [publish] returns [False] and the
    message keeps the partition it had.  ([hash] of the empty string is
    0 in CPython, whatever the hash seed.) *)
Theorem empty_key_routes_to_partition_zero a m td w :
  hash "" = 0 →
  lock (broker w) = false →
  heap w !! a = Some m →
  key m = "" →
  topics (broker w) !! topic m = Some td →
  topic_wf td →
  (partitions td ≠ 0 →
   ∃ w',
     publish a w = Ret (0 <? partitions td) w' ∧
     heap w' =
       <[a := mkStreamMessage (topic m) "" (value m) (timestamp m) 0]> (heap w) ∧
     heap w' !! a =
       Some (mkStreamMessage (topic m) "" (value m) (timestamp m) 0) ∧
     (1 ≤ partitions td →
      ∃ log rest,
        messages td = log :: rest ∧
        topics (broker w') !! topic m =
          Some (mkTopicData (partitions td) ((log ++ [a]) :: rest))) ∧
     (partitions td < 0 → topics (broker w') = topics (broker w))) ∧
  (partitions td = 0 → publish a w = Ret false w).
Proof.
  intros Hh Hl Ha Hk Ht Hwf. unfold topic_wf in Hwf.
  pose proof (lookup_lt_Some _ _ _ Ha) as Hlt.
  assert (with_partition 0 m =
            mkStreamMessage (topic m) "" (value m) (timestamp m) 0) as Hwp.
  { unfold with_partition. by rewrite Hk. }
  rewrite publish_eval, Hl, Ha, Ht, Hk, Hh. unfold py_mod. split.
  - intros Hnz. destruct (Z.eqb_spec (partitions td) 0) as [|_]; [done|].
    rewrite Z.mod_0_l by done.
    destruct (Z.ltb_spec 0 (partitions td)) as [Hpos|Hneg].
    + destruct (messages td) as [|log rest] eqn:Hm; simpl in Hwf; [lia|].
      rewrite py_index_in_range by (simpl; lia).
      eexists. split; [done|]. unfold published. simpl. rewrite Hwp.
      split; [done|]. split; [by apply list_lookup_insert_eq|]. split; [|lia].
      intros _. exists log, rest. split; [done|].
      by rewrite lookup_insert_eq, Hm.
    + rewrite Hwf, Z2Nat.nonpos, py_index_empty by lia.
      eexists. split; [done|]. simpl. rewrite Hwp.
      split; [done|]. split; [by apply list_lookup_insert_eq|].
      split; [lia|done].
  - intros ->. done.
Qed.

(** C7. A message that [publish] accepts gets the partition its key
    routes to, which lies in [[0, partition_count)] of its topic; its
    other fields are the ones it was built with; and no later history
    of operations changes the object (publishing the same object again
    assigns the same partition).  For every message object, the fields
    other than the partition never change. *)
Theorem published_partition_in_range_and_fixed a m w w' :
  broker_wf (broker w) →
  heap w !! a = Some m →
  publish a w = Ret true w' →
  ∃ td p,
    topics (broker w) !! topic m = Some td ∧
    p = hash (key m) mod partitions td ∧
    0 ≤ p < partitions td ∧
    heap w' !! a = Some (mkStreamMessage (topic m) (key m) (value m) (timestamp m) p) ∧
    (∀ ops, heap (state_of (run_ops ops w')) !! a = heap w' !! a) ∧
    (∀ ops b mb, heap w' !! b = Some mb →
       ∃ q, heap (state_of (run_ops ops w')) !! b =
              Some (mkStreamMessage (topic mb) (key mb) (value mb) (timestamp mb) q)).
Proof.
  intros Hwf Ha. rewrite publish_eval, Ha.
  destruct (lock (broker w)) eqn:Hl; [done|].
  destruct (topics (broker w) !! topic m) as [td|] eqn:Ht; [|done].
  unfold py_mod. destruct (partitions td =? 0) eqn:Hz; [done|].
  destruct (py_index (length (messages td)) (hash (key m) mod partitions td))
    as [e|i] eqn:Hi; [done|].
  intros [= <-]. exists td, (hash (key m) mod partitions td).
  assert (0 < partitions td) as Hpos.
  { pose proof (Hwf _ _ Ht) as Hlen. unfold topic_wf in Hlen.
    destruct (decide (0 < partitions td)) as [|Hneg]; [done|].
    rewrite Hlen, Z2Nat.nonpos, py_index_empty in Hi by lia. done. }
  assert (heap (published a m td (hash (key m) mod partitions td) i w) !! a =
            Some (with_partition (hash (key m) mod partitions td) m)) as Ha'.
  { unfold published. simpl. apply list_lookup_insert_eq.
    by eapply lookup_lt_Some. }
  split; [done|]. split; [done|].
  split; [by apply Z.mod_pos_bound|]. split; [done|]. split.
  - intros ops.
    destruct (run_ops_evolves ops
                (published a m td (hash (key m) mod partitions td) i w))
      as (_ & _ & Hs & _).
    apply Hs. eexists _, _. split; [exact Ha'|]. simpl. split.
    + by rewrite lookup_insert_eq.
    + by rewrite py_mod_pos.
  - intros ops b mb Hb.
    destruct (run_ops_evolves ops
                (published a m td (hash (key m) mod partitions td) i w))
      as (_ & Hh & _).
    destruct (Hh _ _ Hb) as (q & Hq). by exists q.
Qed.

(** ** Consuming *)

Lemma taken_left_over max_messages log :
  taken max_messages log ++ left_over max_messages log = log.
Proof.
  unfold taken, left_over, py_slice_to.
  destruct (max_messages <? 0);
    rewrite length_take;
    match goal with
    | |- take ?k _ ++ _ = _ =>
        destruct (Nat.min_spec k (length log)) as [[Hlt ->]|[Hge ->]];
        [apply take_drop|rewrite take_ge, drop_all, app_nil_r by lia; done]
    end.
Qed.

Lemma taken_nonneg max_messages log :
  0 ≤ max_messages → taken max_messages log = take (Z.to_nat max_messages) log.
Proof.
  intros Hn. unfold taken, py_slice_to.
  destruct (max_messages <? 0) eqn:H; [lia|done].
Qed.

Lemma taken_negative max_messages log :
  max_messages < 0 →
  taken max_messages log = take (length log - Z.to_nat (- max_messages)) log.
Proof.
  intros Hn. unfold taken, py_slice_to.
  destruct (max_messages <? 0) eqn:H; [|lia]. f_equal. lia.
Qed.

Lemma taken_total_bound max_messages (logs : list (list addr)) :
  0 ≤ max_messages →
  Z.of_nat (length (concat (taken max_messages <$> logs)))
    ≤ max_messages * Z.of_nat (length logs).
Proof.
  intros Hn. induction logs as [|log logs IH]; csimpl; [lia|].
  rewrite length_app, taken_nonneg, length_take by done.
  rewrite Nat2Z.inj_succ, Z.mul_succ_r. lia.
Qed.

(** C2, as the code has it.  On a known topic [consume] returns, for the
    partitions in index order, what the slice [log[:max_messages]]
    takes from the head of each log, and leaves the rest of each log.
    For [max_messages >= 0] the slice is the first [max_messages]
    records of the log (all of it when it is shorter), so the bound is
    per partition and the total is at most [max_messages] times the
    number of partitions.  For a negative [max_messages] the slice is
    the log without its last [-max_messages] records, and no such bound
    holds. *)
Theorem consume_takes_per_partition name group max_messages td w :
  lock (broker w) = false →
  topics (broker w) !! name = Some td →
  ∃ w',
    consume name group max_messages w =
      Ret (concat (taken max_messages <$> messages td)) w' ∧
    topics (broker w') !! name =
      Some (mkTopicData (partitions td) (left_over max_messages <$> messages td)) ∧
    (∀ log, taken max_messages log ++ left_over max_messages log = log) ∧
    (0 ≤ max_messages →
       (∀ log, taken max_messages log = take (Z.to_nat max_messages) log) ∧
       Z.of_nat (length (concat (taken max_messages <$> messages td)))
         ≤ max_messages * Z.of_nat (length (messages td)) ∧
       (topic_wf td → 0 ≤ partitions td →
        Z.of_nat (length (concat (taken max_messages <$> messages td)))
          ≤ max_messages * partitions td)) ∧
    (max_messages < 0 →
       ∀ log, taken max_messages log =
                take (length log - Z.to_nat (- max_messages)) log).
Proof.
  intros Hl Ht. eexists. split; [by apply consume_known|].
  split; [simpl; by rewrite lookup_insert_eq|].
  split; [apply taken_left_over|]. split.
  - intros Hn. split; [intros; by apply taken_nonneg|].
    split; [by apply taken_total_bound|].
    intros Hwf Hp. unfold topic_wf in Hwf.
    pose proof (taken_total_bound max_messages (messages td) Hn) as Hb.
    rewrite Hwf, Z2Nat.id in Hb by done. done.
  - intros Hn log. by apply taken_negative.
Qed.

(** ** Subscribing *)

Lemma subscribe_one_eval c name w :
  subscribe c [name] w =
    Ret (mkStreamConsumer (self_ref c) (group_id c)
           (subscribed_topics c ∪ {[name]}) (running c) (message_handler c))
      (set_broker
         (set_consumers
            (<[name := default [] (consumers (broker w) !! name) ++ [self_ref c]]>
               (consumers (broker w)))
            (broker w))
         w).
Proof.
  unfold subscribe. simpl. unfold bind at 1 2. rewrite add_consumer_eval.
  unfold ret. simpl. do 2 f_equal. by rewrite union_empty_r_L.
Qed.

(** C6, as the code has it.  Subscribing a second time to the same
    topic leaves the consumer's subscription set as the first call
    made it, but the broker appends the consumer to the topic's list
    once more: the list holds it twice, and the consumer count that
    [get_topic_stats] reports grows by one.  Nothing is raised. *)
Theorem subscribe_twice name c w :
  ∃ c1 w1 w2,
    subscribe c [name] w = Ret c1 w1 ∧
    subscribe c1 [name] w1 = Ret c1 w2 ∧
    subscribed_topics c1 = subscribed_topics c ∪ {[name]} ∧
    consumers (broker w1) !! name =
      Some (default [] (consumers (broker w) !! name) ++ [self_ref c]) ∧
    consumers (broker w2) !! name =
      Some (default [] (consumers (broker w) !! name) ++ [self_ref c; self_ref c]) ∧
    topics (broker w2) = topics (broker w) ∧
    (∀ parts pending n,
       topic_stats (broker w1) name = Some (parts, pending, n) →
       topic_stats (broker w2) name = Some (parts, pending, S n)).
Proof.
  eexists _, _, _. split; [apply subscribe_one_eval|].
  split.
  { rewrite subscribe_one_eval. simpl. do 2 f_equal.
    by rewrite <- (assoc_L (∪)), union_idemp_L. }
  split; [done|]. simpl. rewrite !lookup_insert_eq. simpl.
  split; [done|]. split; [by rewrite <- app_assoc|]. split; [done|].
  intros parts pending n. unfold topic_stats. simpl.
  rewrite !lookup_insert_eq. simpl.
  destruct (topics (broker w) !! name) as [td|]; [|done].
  intros [= <- <- <-]. rewrite !length_app. simpl. do 3 f_equal. lia.
Qed.

(** ** Order of delivery within a partition *)

Lemma segments_remaining k max_messages log :
  concat ((λ j, taken max_messages (remaining j max_messages log)) <$> seq 0 k)
    ++ remaining k max_messages log = log.
Proof.
  revert log. induction k as [|k IH]; intros log; [done|].
  rewrite <- cons_seq, fmap_cons, <- fmap_S_seq, <- list_fmap_compose.
  simpl. rewrite <- app_assoc.
  rewrite <- (taken_left_over max_messages log) at 3.
  f_equal. apply (IH (left_over max_messages log)).
Qed.

Lemma left_over_shorter max_messages log :
  1 ≤ max_messages →
  (length (left_over max_messages log) ≤ length log - 1)%nat.
Proof.
  intros Hn. unfold left_over. fold (taken max_messages log).
  rewrite taken_nonneg by lia.
  rewrite length_drop, length_take. destruct log; simpl; lia.
Qed.

Lemma remaining_exhausts k max_messages log :
  1 ≤ max_messages → (length log ≤ k)%nat → remaining k max_messages log = [].
Proof.
  intros Hn. revert log. induction k as [|k IH]; intros log Hlen; simpl.
  - destruct log; [done|simpl in Hlen; lia].
  - apply IH. pose proof (left_over_shorter max_messages log Hn). lia.
Qed.

Lemma consume_nothing_left name group max_messages td w :
  lock (broker w) = false →
  topics (broker w) !! name = Some td →
  Forall (λ log, log = []) (messages td) →
  consume name group max_messages w = Ret [] w.
Proof.
  intros Hl Ht Hall. rewrite (consume_known _ _ _ _ td) by done.
  assert (taken max_messages <$> messages td = messages td ∧
          left_over max_messages <$> messages td = messages td) as [Ht1 Ht2].
  { induction Hall as [|log logs -> _ [IH1 IH2]]; [done|].
    rewrite !fmap_cons, IH1, IH2. unfold left_over, taken.
    by rewrite py_slice_to_nil. }
  rewrite Ht2. f_equal.
  - clear Ht1 Ht2. induction Hall as [|log logs -> _ IH]; [done|].
    rewrite fmap_cons. simpl. rewrite IH. unfold taken.
    by rewrite py_slice_to_nil.
  - destruct td as [parts logs]. simpl. rewrite insert_id by done.
    by open_world w.
Qed.

Lemma consume_times_known k name group max_messages td w :
  lock (broker w) = false →
  topics (broker w) !! name = Some td →
  ∃ w',
    consume_times k name group max_messages w =
      Ret ((λ j, concat ((λ log, taken max_messages (remaining j max_messages log))
                           <$> messages td)) <$> seq 0 k)
        w' ∧
    lock (broker w') = false ∧
    heap w' = heap w ∧
    topics (broker w') !! name =
      Some (mkTopicData (partitions td)
              (remaining k max_messages <$> messages td)).
Proof.
  revert td w. induction k as [|k IH]; intros td w Hl Ht.
  - exists w. simpl. rewrite list_fmap_id. by destruct td.
  - simpl. unfold bind at 1. rewrite (consume_known _ _ _ _ td) by done.
    edestruct (IH (mkTopicData (partitions td)
                     (left_over max_messages <$> messages td))) as
      (w' & Hrun & Hl' & Hh' & Ht'); [| |unfold bind at 1; rewrite Hrun].
    + done.
    + simpl. by rewrite lookup_insert_eq.
    + exists w'. unfold ret. simpl in *.
      rewrite <- list_fmap_compose in Ht'.
      split; [|done]. do 2 f_equal.
      rewrite <- fmap_S_seq, <- list_fmap_compose.
      apply list_fmap_ext. intros _ j _. simpl.
      by rewrite <- list_fmap_compose.
Qed.

Lemma enqueue_logs (r : nat → nat) a (l : list nat) (logs : list (list nat)) :
  imap (λ i log, log ++ filter (λ x, r x = i) l)
    (alter (λ log, log ++ [a]) (r a) logs) =
  imap (λ i log, log ++ filter (λ x, r x = i) (a :: l)) logs.
Proof.
  apply list_eq. intros i. rewrite !list_lookup_imap.
  destruct (decide (i = r a)) as [->|Hne].
  - rewrite list_lookup_alter_eq. destruct (logs !! r a) as [log|]; [|done].
    simpl. rewrite filter_cons_True by done. by rewrite <- app_assoc.
  - rewrite list_lookup_alter_ne by done.
    destruct (logs !! i) as [log|]; [|done].
    simpl. by rewrite filter_cons_False by done.
Qed.

Lemma publish_each_known (r : nat → nat) name count l :
  1 ≤ count →
  ∀ logs w,
    lock (broker w) = false →
    topics (broker w) !! name = Some (mkTopicData count logs) →
    length logs = Z.to_nat count →
    Forall (λ a, ∃ m, heap w !! a = Some m ∧ topic m = name ∧
                      Z.to_nat (hash (key m) mod count) = r a) l →
    ∃ w',
      publish_each l w = Ret tt w' ∧
      lock (broker w') = false ∧
      topics (broker w') !! name =
        Some (mkTopicData count
                (imap (λ i log, log ++ filter (λ x, r x = i) l) logs)).
Proof.
  intros Hc. induction l as [|a l IH]; intros logs w Hl Ht Hlen Hall.
  - exists w. split; [done|]. split; [done|].
    rewrite Ht. do 2 f_equal. apply list_eq. intros i.
    rewrite list_lookup_imap. destruct (logs !! i); simpl; [|done].
    by rewrite filter_nil, app_nil_r.
  - apply Forall_cons in Hall as [(m & Ha & Hname & Hr) Hall].
    pose proof (Z.mod_pos_bound (hash (key m)) count ltac:(lia)) as Hb.
    assert (publish a w =
              Ret true (published a m (mkTopicData count logs)
                          (hash (key m) mod count) (r a) w)) as Hpub.
    { rewrite (publish_known a m (mkTopicData count logs));
        [|done|done|by rewrite Hname].
      simpl. rewrite py_mod_pos by lia. rewrite py_index_in_range by lia.
      by rewrite Hr. }
    unfold publish_each. simpl. unfold bind at 1 2. rewrite Hpub. unfold ret.
    destruct (IH (alter (λ log, log ++ [a]) (r a) logs)
                (published a m (mkTopicData count logs)
                   (hash (key m) mod count) (r a) w))
      as (w' & Hrun & Hl' & Ht').
    + done.
    + unfold published. simpl. rewrite <- Hname. by rewrite lookup_insert_eq.
    + by rewrite length_alter.
    + eapply Forall_impl; [exact Hall|]. simpl.
      intros b (mb & Hb' & Hnb & Hrb).
      destruct (decide (b = a)) as [->|Hne].
      * exists (with_partition (hash (key m) mod count) m).
        assert (mb = m) as -> by congruence.
        split; [|done]. apply list_lookup_insert_eq. by eapply lookup_lt_Some.
      * exists mb. split; [|done]. by rewrite list_lookup_insert_ne.
    + exists w'. split; [exact Hrun|]. split; [done|].
      by rewrite Ht', enqueue_logs.
Qed.

(** C1. Messages published to an existing topic go to the tail of the
    log their key routes to, so each log holds its messages in publish
    order.  Successive calls of [consume] (nothing else touching the
    topic) return, call after call and for the partitions in index
    order, the next records from the head of each log and leave the
    rest: for every log the batches taken from it, in call order and
    followed by what is left, are the log itself, so nothing is
    returned twice, skipped or reordered.  With [max_messages >= 1] a
    log of at most [k] records is empty after [k] calls, and once every
    log is empty [consume] returns the empty list and changes
    nothing. *)
Theorem consume_is_fifo name group max_messages td l k w :
  lock (broker w) = false →
  topics (broker w) !! name = Some td →
  topic_wf td →
  1 ≤ partitions td →
  Forall (λ a, ∃ m, heap w !! a = Some m ∧ topic m = name) l →
  let logs :=
    imap (λ i log, log ++ filter (λ a, route (heap w) (partitions td) a = i) l)
      (messages td) in
  ∃ w1 w2,
    publish_each l w = Ret tt w1 ∧
    topics (broker w1) !! name = Some (mkTopicData (partitions td) logs) ∧
    consume_times k name group max_messages w1 =
      Ret ((λ j, concat ((λ log, taken max_messages (remaining j max_messages log))
                           <$> logs)) <$> seq 0 k)
        w2 ∧
    topics (broker w2) !! name =
      Some (mkTopicData (partitions td) (remaining k max_messages <$> logs)) ∧
    (∀ log,
       concat ((λ j, taken max_messages (remaining j max_messages log)) <$> seq 0 k)
         ++ remaining k max_messages log = log) ∧
    (1 ≤ max_messages →
     ∀ log, (length log ≤ k)%nat → remaining k max_messages log = []) ∧
    (∀ w3 td3,
       lock (broker w3) = false →
       topics (broker w3) !! name = Some td3 →
       Forall (λ log, log = []) (messages td3) →
       consume name group max_messages w3 = Ret [] w3).
Proof.
  intros Hl Ht Hwf Hp Hall logs.
  destruct (publish_each_known (route (heap w) (partitions td)) name
              (partitions td) l Hp (messages td) w) as (w1 & Hpub & Hl1 & Ht1).
  - done.
  - by destruct td.
  - done.
  - eapply Forall_impl; [exact Hall|]. simpl.
    intros a (m & Ha & Hn). exists m. unfold route. by rewrite Ha.
  - destruct (consume_times_known k name group max_messages
                (mkTopicData (partitions td) logs) w1 Hl1 Ht1)
      as (w2 & Hrun & _ & _ & Ht2).
    exists w1, w2. split; [done|]. split; [done|]. split; [done|].
    split; [done|]. split; [intros; apply segments_remaining|].
    split; [intros; by apply remaining_exhausts|].
    intros. by eapply consume_nothing_left.
Qed.

(** ** The poll loop and handler faults *)

Lemma for_each_app {A} (xs ys : list A) (body : A → M unit) w :
  for_each (xs ++ ys) body w = (for_each xs body ;;; for_each ys body) w.
Proof.
  revert w. induction xs as [|x xs IH]; intros w; simpl; [done|].
  unfold bind at 1 2 3. by destruct (body x w) as [[] w'|e w'|w'].
Qed.

(** What leaves an iteration of the loop is what left the sweep and
    the [except] clause did not catch. *)
Lemma poll_once_raises c w e w' :
  poll_once c w = Raise e w' →
  sweep c (elements (subscribed_topics c)) w = Raise e w' ∧
  is_Exception e = false.
Proof.
  unfold poll_once, try_except, ret.
  destruct (sweep c (elements (subscribed_topics c)) w) as [u w1|e1 w1|w1];
    try done.
  destruct (is_Exception e1) eqn:He; [done|]. by intros [= <- <-].
Qed.

(** A processor's handler raises exactly what its transform raised and
    its [except] clause did not catch. *)
Lemma processor_handler_raises output_topic transform_func a w e w' :
  processor_handler output_topic transform_func a w = Raise e w' ↔
  w' = w ∧ is_Exception e = false ∧
  ∃ m, heap w !! a = Some m ∧ transform_func (value m) = inl e.
Proof.
  rewrite processor_handler_eval. split.
  - destruct (heap w !! a) as [m|]; [|done].
    destruct (transform_func (value m)) as [e1|v] eqn:Hf.
    + destruct (is_Exception e1) eqn:He; [done|]. intros [= <- <-].
      split; [done|]. split; [done|]. by exists m.
    + match goal with
      | |- context [publish ?b ?w1] =>
          pose proof (publish_never_raises b w1) as Hnr;
          destruct (publish b w1) as [sent w2|e2 w2|w2]; try done
      end.
      by destruct (Hnr e2 w2).
  - intros (-> & He & m & -> & ->). by rewrite He.
Qed.

Lemma publish_handled a w : handled (state_of (publish a w)) = handled w.
Proof. rewrite publish_eval. by repeat (case_match; try done). Qed.

Lemma processor_handler_handled output_topic transform_func a w :
  handled (state_of (processor_handler output_topic transform_func a w)) = handled w.
Proof.
  rewrite processor_handler_eval.
  destruct (heap w !! a) as [m|]; [|done].
  destruct (transform_func (value m)) as [e|v]; [by destruct (is_Exception e)|].
  match goal with
  | |- context [publish ?b ?w1] =>
      pose proof (publish_handled b w1) as Hh;
      destruct (publish b w1); simpl in *; done
  end.
Qed.

(** With a processor's handler every message of a batch reaches the
    handler, unless the thread blocks on the way or the transform
    raises something that is not an [Exception]. *)
Lemma processor_batch_handled c output_topic transform_func batch w :
  message_handler c = Some (processor_handler output_topic transform_func) →
  (∃ w', for_each batch (handle c) w = Ret tt w' ∧
         handled w' = handled w ++ batch) ∨
  (∃ w', for_each batch (handle c) w = Blocked w') ∨
  (∃ e w', for_each batch (handle c) w = Raise e w' ∧ is_Exception e = false).
Proof.
  intros Hh. revert w. induction batch as [|a batch IH]; intros w.
  - left. exists w. by rewrite app_nil_r.
  - assert (for_each (a :: batch) (handle c) w =
            match processor_handler output_topic transform_func a
                    (set_handled (handled w ++ [a]) w) with
            | Ret _ w1 => for_each batch (handle c) w1
            | Raise e w1 => Raise e w1
            | Blocked w1 => Blocked w1
            end) as ->.
    { simpl. unfold bind at 1. unfold handle at 1. rewrite Hh.
      by unfold bind at 1. }
    pose proof (processor_handler_handled output_topic transform_func a
                  (set_handled (handled w ++ [a]) w)) as Hpres.
    pose proof (processor_handler_raises output_topic transform_func a
                  (set_handled (handled w ++ [a]) w)) as Hnr.
    destruct (processor_handler _ _ _ _) as [[] w1|e w1|w1]; simpl in Hpres.
    + destruct (IH w1) as [(w' & Hrun & Hd)|[(w' & Hrun)|(e & w' & Hrun & He)]].
      * left. exists w'. split; [done|]. by rewrite Hd, Hpres, <- app_assoc.
      * right. left. by exists w'.
      * right. right. by exists e, w'.
    + right. right. exists e, w1. split; [done|].
      by destruct (proj1 (Hnr e w1) eq_refl) as (_ & He & _).
    + right. left. by exists w1.
Qed.

(** C5, as the code has it.  An exception of the handler leaves both
    loops of the sweep.  When it is an [Exception] it is caught by the
    [except] clause of the [while] body: that iteration returns
    normally and the loop goes on with the next one.  The state then is
    the one the handler raised in: the records of the batch that follow
    the faulting one, which [consume] has already removed from the
    logs, are not handed to the handler, and the topics after the
    current one are not polled in this iteration.  When it is not an
    [Exception] ([SystemExit], [KeyboardInterrupt]) the clause does not
    catch it: it leaves the iteration and the loop, in that same state.
    So nothing but such an exception ever leaves an iteration or a
    processor's handler.  A processor's handler catches the
    [Exception]s of its transform itself, record by record, so a
    processor hands every record of a batch to its handler, unless it
    blocks or the transform raises something that is not an
    [Exception]. *)
Theorem handler_fault_abandons_sweep c before name after pre a post e
    w w0 w1 w2 w3 :
  elements (subscribed_topics c) = before ++ name :: after →
  sweep c before w = Ret tt w0 →
  consume name (group_id c) 10 w0 = Ret (pre ++ a :: post) w1 →
  for_each pre (handle c) w1 = Ret tt w2 →
  handle c a w2 = Raise e w3 →
  poll_once c w = (if is_Exception e then Ret tt w3 else Raise e w3) ∧
  (∀ n, poll_loop c (S n) w =
          if is_Exception e then poll_loop c n w3 else Raise e w3) ∧
  (∀ c' w' e' w'', poll_once c' w' = Raise e' w'' → is_Exception e' = false) ∧
  (∀ output_topic transform_func b w' e' w'',
     processor_handler output_topic transform_func b w' = Raise e' w'' →
     is_Exception e' = false) ∧
  (∀ c' output_topic transform_func batch w',
     message_handler c' = Some (processor_handler output_topic transform_func) →
     (∃ w'', for_each batch (handle c') w' = Ret tt w'' ∧
             handled w'' = handled w' ++ batch) ∨
     (∃ w'', for_each batch (handle c') w' = Blocked w'') ∨
     (∃ e' w'', for_each batch (handle c') w' = Raise e' w'' ∧
                is_Exception e' = false)).
Proof.
  intros Hel Hbefore Hcons Hpre Hfault.
  assert (poll_once c w = if is_Exception e then Ret tt w3 else Raise e w3)
    as Hpoll.
  { unfold poll_once, try_except. rewrite Hel. unfold sweep.
    rewrite for_each_app. unfold bind at 1. fold (sweep c before).
    rewrite Hbefore. simpl. unfold bind at 1 2. rewrite Hcons.
    rewrite for_each_app. unfold bind at 1. rewrite Hpre. simpl.
    unfold bind at 1. by rewrite Hfault. }
  split; [done|]. split.
  { intros n. simpl. unfold bind at 1. rewrite Hpoll.
    by destruct (is_Exception e). }
  split; [intros c' w' e' w'' H; by apply poll_once_raises in H as [_ ?]|].
  split.
  { intros output_topic transform_func b w' e' w'' H.
    by apply processor_handler_raises in H as (_ & ? & _). }
  intros. by eapply processor_batch_handled.
Qed.

(** ** The processor pipeline *)

(** What [aggregate_events] can raise: the [TypeError] and the
    [OverflowError] of the multiplication. *)
Lemma py_mul_float_raises x y e :
  py_mul_float x y = inl e → is_Exception e = true.
Proof.
  unfold py_mul_float, py_float_of_int.
  destruct x; try (by intros [= <-]).
  destruct (PrimFloat.is_infinity _); by intros [= <-].
Qed.

Lemma aggregate_events_raises processed_at data e :
  aggregate_events processed_at data = inl e → is_Exception e = true.
Proof.
  unfold aggregate_events.
  destruct (py_mul_float _ _) as [e1|score] eqn:H; [|done].
  intros [= <-]. by eapply py_mul_float_raises.
Qed.

Lemma processor_handler_skips output_topic transform_func a w :
  (heap w !! a = None ∨
   ∃ m e, heap w !! a = Some m ∧ transform_func (value m) = inl e ∧
          is_Exception e = true) →
  processor_handler output_topic transform_func a w = Ret tt w.
Proof.
  intros [Ha|(m & e & Ha & Hf & He)]; rewrite processor_handler_eval, Ha; [done|].
  by rewrite Hf, He.
Qed.

Lemma processor_handler_republishes output_topic transform_func count a m v w :
  1 ≤ count →
  pipeline_ready output_topic count w →
  heap w !! a = Some m →
  transform_func (value m) = inr v →
  ∃ w',
    processor_handler output_topic transform_func a w = Ret tt w' ∧
    pipeline_ready output_topic count w' ∧
    heap w' !! length (heap w) =
      Some (mkStreamMessage output_topic (key m) v (clock (length (heap w)))
              (hash (key m) mod count)) ∧
    settled w' (length (heap w)) ∧
    stored w' output_topic (Z.to_nat (hash (key m) mod count)) (length (heap w)) ∧
    (∀ i x, stored w output_topic i x → stored w' output_topic i x).
Proof.
  intros Hc (Hl & td & Ht & Hp & Hlen) Ha Hf.
  pose proof (Z.mod_pos_bound (hash (key m)) count ltac:(lia)) as Hb.
  set (m' := mkStreamMessage output_topic (key m) v (clock (length (heap w))) 0).
  set (w1 := set_heap (heap w ++ [m']) w).
  assert (heap w1 !! length (heap w) = Some m') as Ha1.
  { unfold w1. simpl. by rewrite lookup_app_r, Nat.sub_diag by lia. }
  assert (publish (length (heap w)) w1 =
            Ret true (published (length (heap w)) m' td (hash (key m) mod count)
                        (Z.to_nat (hash (key m) mod count)) w1)) as Hpub.
  { rewrite (publish_known _ m' td) by done. simpl. rewrite Hp.
    rewrite py_mod_pos by lia. by rewrite py_index_in_range by lia. }
  eexists. split.
  { rewrite processor_handler_eval, Ha, Hf. fold m'. fold w1.
    by rewrite Hpub. }
  assert (Z.to_nat (hash (key m) mod count) < length (messages td))%nat as Hi
    by lia.
  destruct (lookup_lt_is_Some_2 _ _ Hi) as [log Hlog].
  split; [|split; [|split; [|split]]].
  - split; [done|]. eexists. split; [simpl; by rewrite lookup_insert_eq|].
    simpl. split; [done|]. by rewrite length_alter.
  - simpl. apply list_lookup_insert_eq. rewrite length_app. simpl. lia.
  - eexists _, _. split.
    + simpl. apply list_lookup_insert_eq. rewrite length_app. simpl. lia.
    + simpl. split; [by rewrite lookup_insert_eq|].
      simpl. rewrite Hp. by rewrite py_mod_pos by lia.
  - eexists _, _. split; [simpl; by rewrite lookup_insert_eq|]. simpl.
    split; [by rewrite list_lookup_alter_eq, Hlog|].
    apply elem_of_app. right. by apply list_elem_of_singleton.
  - intros i x (td0 & log0 & Ht0 & Hl0 & Hx).
    assert (td0 = td) as -> by (simpl in Ht0; congruence).
    destruct (decide (i = Z.to_nat (hash (key m) mod count))) as [->|Hne].
    + eexists _, _. split; [simpl; by rewrite lookup_insert_eq|]. simpl.
      split; [by rewrite list_lookup_alter_eq, Hl0|].
      apply elem_of_app. by left.
    + eexists _, _. split; [simpl; by rewrite lookup_insert_eq|]. simpl.
      split; [by rewrite list_lookup_alter_ne|done].
Qed.

Lemma handle_processor_eval c output_topic transform_func a w :
  message_handler c = Some (processor_handler output_topic transform_func) →
  handle c a w =
    processor_handler output_topic transform_func a
      (set_handled (handled w ++ [a]) w).
Proof. intros Hh. unfold handle. rewrite Hh. by unfold bind. Qed.

Lemma processor_batch_republishes c output_topic transform_func count batch :
  1 ≤ count →
  message_handler c = Some (processor_handler output_topic transform_func) →
  (∀ v e, transform_func v = inl e → is_Exception e = true) →
  ∀ w,
    pipeline_ready output_topic count w →
    ∃ w',
      for_each batch (handle c) w = Ret tt w' ∧
      pipeline_ready output_topic count w' ∧
      handled w' = handled w ++ batch ∧
      evolves w w' ∧
      (∀ i x, stored w output_topic i x → stored w' output_topic i x) ∧
      (∀ a m v,
         a ∈ batch →
         heap w !! a = Some m →
         transform_func (value m) = inr v →
         ∃ a' ts,
           heap w' !! a' =
             Some (mkStreamMessage output_topic (key m) v ts
                     (hash (key m) mod count)) ∧
           stored w' output_topic (Z.to_nat (hash (key m) mod count)) a').
Proof.
  intros Hc Hh Hcaught. induction batch as [|a batch IH]; intros w Hready.
  - exists w. split; [done|]. split; [done|].
    split; [by rewrite app_nil_r|]. split; [apply evolves_refl|].
    split; [done|]. intros a m v Hin. by apply elem_of_nil in Hin.
  - set (wh := set_handled (handled w ++ [a]) w).
    assert (pipeline_ready output_topic count wh) as Hreadyh by done.
    assert (∃ w1,
              processor_handler output_topic transform_func a wh = Ret tt w1 ∧
              pipeline_ready output_topic count w1 ∧
              (∀ i x, stored wh output_topic i x → stored w1 output_topic i x) ∧
              (∀ m v, heap wh !! a = Some m → transform_func (value m) = inr v →
                 ∃ a', heap w1 !! a' =
                         Some (mkStreamMessage output_topic (key m) v (clock a')
                                 (hash (key m) mod count)) ∧
                       settled w1 a' ∧
                       stored w1 output_topic
                         (Z.to_nat (hash (key m) mod count)) a'))
      as (w1 & Hstep & Hready1 & Hmono1 & Hnew1).
    { destruct (heap wh !! a) as [m|] eqn:Ha.
      - destruct (transform_func (value m)) as [e|v] eqn:Hf.
        + exists wh. split.
          { apply processor_handler_skips. right. exists m, e.
            split; [done|]. split; [done|]. by eapply Hcaught. }
          split; [done|]. split; [done|]. intros m0 v0 [= <-] Hf0. congruence.
        + destruct (processor_handler_republishes output_topic transform_func
                      count a m v wh Hc Hreadyh Ha Hf)
            as (w1 & Hrun & Hr1 & Hnew & Hset & Hst & Hmono).
          exists w1. split; [done|]. split; [done|]. split; [done|].
          intros m0 v0 [= <-] Hf0. assert (v0 = v) as -> by congruence.
          by exists (length (heap wh)).
      - exists wh. split; [apply processor_handler_skips; by left|].
        split; [done|]. split; [done|]. by intros m0 v0 [=]. }
    pose proof (processor_handler_evolves output_topic transform_func a wh) as Hev1.
    pose proof (processor_handler_handled output_topic transform_func a wh) as Hhd1.
    rewrite Hstep in Hev1, Hhd1. simpl in Hev1, Hhd1.
    destruct (IH w1 Hready1) as (w' & Hrun & Hready' & Hhd' & Hev' & Hmono' & Hnew').
    exists w'. split.
    { simpl. unfold bind at 1.
      rewrite (handle_processor_eval c output_topic transform_func) by done.
      fold wh. by rewrite Hstep. }
    split; [done|]. split; [by rewrite Hhd', Hhd1, <- app_assoc|].
    assert (evolves w wh) as Hevh by by apply evolves_same_core.
    split; [eauto using evolves_trans|].
    split; [intros i x Hs; by apply Hmono', Hmono1|].
    intros a0 m v Hin Ha0 Hf. apply elem_of_cons in Hin as [->|Hin].
    + destruct (Hnew1 m v Ha0 Hf) as (a' & Ha' & Hset & Hst).
      exists a', (clock a'). split; [|by apply Hmono'].
      destruct Hev' as (_ & _ & Hs & _). by rewrite (Hs a' Hset).
    + destruct Hev1 as (_ & Hheap & _).
      destruct (Hheap a0 m Ha0) as (q & Hq).
      apply (Hnew' a0 (with_partition q m) v Hin Hq Hf).
Qed.

(** C9, as the code has it.  A processor registered on an existing
    input topic, with an existing output topic of at least one
    partition and a transform that raises nothing but [Exception]s,
    takes in one iteration of its loop the batch that [consume] returns
    for the input topic and hands every record of it to its handler;
    for every record of the batch on which the transform returns a
    payload, the output topic then holds a message with that payload
    and the record's key, in the log the key routes to.  A record on
    which the transform raises an [Exception] is dropped: the handler
    returns without publishing anything.  What the transform raises
    and is not an [Exception] leaves the handler. *)
Theorem processor_republishes_transformed self name input_topic output_topic
    transform_func tdi tdo w :
  lock (broker w) = false →
  topics (broker w) !! input_topic = Some tdi →
  topics (broker w) !! output_topic = Some tdo →
  topic_wf tdo →
  1 ≤ partitions tdo →
  let batch := concat (taken 10 <$> messages tdi) in
  ∃ c w0,
    add_processor self name input_topic output_topic transform_func w = Ret c w0 ∧
    ((∀ v e, transform_func v = inl e → is_Exception e = true) →
     ∃ w',
       poll_once c w0 = Ret tt w' ∧
       handled w' = handled w ++ batch ∧
       (∀ a m v,
          a ∈ batch →
          heap w !! a = Some m →
          transform_func (value m) = inr v →
          ∃ a' ts,
            heap w' !! a' =
              Some (mkStreamMessage output_topic (key m) v ts
                      (hash (key m) mod partitions tdo)) ∧
            stored w' output_topic
              (Z.to_nat (hash (key m) mod partitions tdo)) a')) ∧
    (∀ a m e w1,
       heap w1 !! a = Some m →
       transform_func (value m) = inl e →
       processor_handler output_topic transform_func a w1 =
         if is_Exception e then Ret tt w1 else Raise e w1).
Proof.
  intros Hl Hti Hto Hwf Hp batch.
  set (c := mkStreamConsumer self ("processor_" +:+ name) (∅ ∪ {[input_topic]})
              false (Some (processor_handler output_topic transform_func))).
  set (w0 := set_broker
               (set_consumers
                  (<[input_topic :=
                       default [] (consumers (broker w) !! input_topic) ++ [self]]>
                     (consumers (broker w)))
                  (broker w))
               w).
  set (w1 := set_broker
               (set_topics
                  (<[input_topic := mkTopicData (partitions tdi)
                                      (left_over 10 <$> messages tdi)]>
                     (topics (broker w0)))
                  (broker w0))
               w0).
  assert (pipeline_ready output_topic (partitions tdo) w1) as Hready.
  { split; [done|]. simpl.
    destruct (decide (input_topic = output_topic)) as [->|Hne].
    - rewrite lookup_insert_eq. eexists. split; [done|]. simpl.
      assert (tdi = tdo) as -> by congruence.
      split; [done|]. by rewrite length_fmap.
    - rewrite lookup_insert_ne by done. by exists tdo. }
  exists c, w0. split; [apply subscribe_one_eval|]. split.
  - intros Hcaught.
    destruct (processor_batch_republishes c output_topic transform_func
                (partitions tdo) batch Hp eq_refl Hcaught w1 Hready)
      as (w' & Hrun & _ & Hhd & _ & _ & Hnew).
    exists w'. split; [|split; [done|]].
    + unfold poll_once, try_except. unfold c at 2. simpl.
      rewrite union_empty_l_L, elements_singleton.
      unfold sweep. simpl. unfold bind at 1 2.
      rewrite (consume_known _ _ _ _ tdi) by done.
      fold batch. fold w1. rewrite Hrun. done.
    + intros a m v Hin Ha Hf. by apply (Hnew a m v).
  - intros a m e w2 Ha Hf. by rewrite processor_handler_eval, Ha, Hf.
Qed.

(** ** Statistics *)

Lemma get_topic_stats_eval w :
  get_topic_stats w =
    if lock (broker w) then Blocked w
    else Ret (map_imap
                (λ name data,
                   Some (partitions data,
                         sum_list (length <$> messages data),
                         length (default [] (consumers (broker w) !! name))))
                (topics (broker w)))
           w.
Proof.
  open_world w. unfold get_topic_stats. run. by destruct lk.
Qed.

Lemma pending_after_append (logs : list (list nat)) i a :
  (i < length logs)%nat →
  sum_list (length <$> alter (λ log, log ++ [a]) i logs) =
    S (sum_list (length <$> logs)).
Proof.
  revert i. induction logs as [|log logs IH]; intros i Hi; simpl in Hi; [lia|].
  destruct i as [|i]; csimpl.
  - rewrite length_app. simpl. lia.
  - rewrite IH by lia. lia.
Qed.

Lemma pending_after_consume max_messages (logs : list (list nat)) :
  sum_list (length <$> logs) =
    (length (concat (taken max_messages <$> logs)) +
     sum_list (length <$> (left_over max_messages <$> logs)))%nat.
Proof.
  induction logs as [|log logs IH]; [done|].
  rewrite !fmap_cons. simpl. rewrite length_app, IH.
  rewrite <- (taken_left_over max_messages log) at 1.
  rewrite length_app. lia.
Qed.

Lemma py_index_bound len p i : py_index len p = inr i → (i < len)%nat.
Proof.
  unfold py_index.
  destruct (Z.leb_spec 0 p), (Z.ltb_spec p (Z.of_nat len)); simpl;
    try (intros [= <-]; lia);
    destruct (Z.leb_spec (- Z.of_nat len) p), (Z.ltb_spec p 0); simpl;
    try done; intros [= <-]; lia.
Qed.

(** X1. The statistics follow [consume]: the pending total that
    [get_topic_stats] reports for the topic before the call is the
    number of records the call returns plus the total reported after
    it; the partition count, the consumer count and the entries of the
    other topics are the same, and [get_topic_stats] itself changes
    nothing. *)
Theorem stats_account_for_consumed name group max_messages td w :
  lock (broker w) = false →
  topics (broker w) !! name = Some td →
  ∃ stats batch w1 stats1 total total1 count,
    get_topic_stats w = Ret stats w ∧
    consume name group max_messages w = Ret batch w1 ∧
    get_topic_stats w1 = Ret stats1 w1 ∧
    stats !! name = Some (partitions td, total, count) ∧
    stats1 !! name = Some (partitions td, total1, count) ∧
    total = (length batch + total1)%nat ∧
    (∀ other, other ≠ name → stats1 !! other = stats !! other).
Proof.
  intros Hl Ht. eexists _, _, _, _, _, _, _.
  split; [by rewrite get_topic_stats_eval, Hl|].
  split; [by apply consume_known|].
  split; [rewrite get_topic_stats_eval; simpl; by rewrite ?Hl|].
  rewrite !map_lookup_imap, Ht, lookup_insert_eq. simpl.
  split; [done|]. split; [done|].
  split; [apply pending_after_consume|].
  intros other Hne. rewrite !map_lookup_imap.
  by rewrite lookup_insert_ne.
Qed.

(** X2. The statistics follow [publish]: when [publish] accepts a
    message the pending total of its topic grows by exactly one and
    nothing else in the statistics changes; when it returns [False] the
    statistics are what they were. *)
Theorem stats_count_published a m td w :
  lock (broker w) = false →
  heap w !! a = Some m →
  topics (broker w) !! topic m = Some td →
  ∃ stats accepted w1 stats1,
    get_topic_stats w = Ret stats w ∧
    publish a w = Ret accepted w1 ∧
    get_topic_stats w1 = Ret stats1 w1 ∧
    (accepted = false → stats1 = stats) ∧
    (accepted = true →
     ∃ total count,
       stats !! topic m = Some (partitions td, total, count) ∧
       stats1 !! topic m = Some (partitions td, S total, count) ∧
       ∀ other, other ≠ topic m → stats1 !! other = stats !! other).
Proof.
  intros Hl Ha Ht.
  rewrite (publish_known a m td) by done.
  rewrite get_topic_stats_eval, Hl.
  destruct (py_mod (hash (key m)) (partitions td)) as [e|p].
  { eexists _, false, w, _. split; [done|]. split; [done|].
    split; [by rewrite get_topic_stats_eval, Hl|]. by split. }
  destruct (py_index (length (messages td)) p) as [e|i] eqn:Hi.
  { eexists _, false, _, _. split; [done|]. split; [done|].
    split; [rewrite get_topic_stats_eval; simpl; by rewrite ?Hl|]. by split. }
  eexists _, true, _, _. split; [done|]. split; [done|].
  split; [rewrite get_topic_stats_eval; simpl; by rewrite ?Hl|]. split; [done|].
  intros _. eexists _, _. simpl.
  rewrite !map_lookup_imap, Ht, lookup_insert_eq. simpl.
  split; [done|]. split.
  - do 3 f_equal. apply pending_after_append. by eapply py_index_bound.
  - intros other Hne. rewrite !map_lookup_imap.
    by rewrite lookup_insert_ne.
Qed.

Lemma pending_of_new_topic n :
  sum_list (length <$> replicate n ([] : list nat)) = O.
Proof. induction n as [|n IH]; [done|]. csimpl. exact IH. Qed.

(** X3. Subscribing and creating a topic do not commute.  A consumer
    that subscribes to a name before the topic exists is registered
    under it, but [create_topic] then binds the name to an empty
    consumer list: the consumer still has the topic in its subscription
    set and the statistics report no consumer for it.  In the other
    order the registration is kept. *)
Theorem create_topic_forgets_earlier_subscribers name count c w :
  lock (broker w) = false →
  topics (broker w) !! name = None →
  (∃ c1 w1 w2 stats,
     subscribe c [name] w = Ret c1 w1 ∧
     name ∈ subscribed_topics c1 ∧
     self_ref c ∈ default [] (consumers (broker w1) !! name) ∧
     create_topic name count w1 = Ret tt w2 ∧
     consumers (broker w2) !! name = Some [] ∧
     get_topic_stats w2 = Ret stats w2 ∧
     stats !! name = Some (count, O, O)) ∧
  (∃ w1 c1 w2 stats,
     create_topic name count w = Ret tt w1 ∧
     subscribe c [name] w1 = Ret c1 w2 ∧
     consumers (broker w2) !! name = Some [self_ref c] ∧
     get_topic_stats w2 = Ret stats w2 ∧
     stats !! name = Some (count, O, 1%nat)).
Proof.
  intros Hl Ht. split.
  - eexists _, _, _, _. split; [apply subscribe_one_eval|].
    split; [simpl; apply elem_of_union; right; by apply elem_of_singleton|].
    split.
    { simpl. rewrite lookup_insert_eq. simpl.
      apply elem_of_app. right. by apply list_elem_of_singleton. }
    split; [by apply create_topic_fresh|].
    split; [simpl; by rewrite lookup_insert_eq|].
    split; [rewrite get_topic_stats_eval; simpl; by rewrite ?Hl|].
    simpl. rewrite map_lookup_imap, !lookup_insert_eq. simpl.
    by rewrite pending_of_new_topic.
  - eexists _, _, _, _. split; [by apply create_topic_fresh|].
    split; [apply subscribe_one_eval|].
    split; [simpl; by rewrite !lookup_insert_eq|].
    split; [rewrite get_topic_stats_eval; simpl; by rewrite ?Hl|].
    simpl. rewrite map_lookup_imap, !lookup_insert_eq. simpl.
    by rewrite pending_of_new_topic.
Qed.

(** ** Batches *)

Lemma send_to_ready_topic name k v count w :
  1 ≤ count →
  pipeline_ready name count w →
  ∃ w',
    send name k v w = Ret true w' ∧
    pipeline_ready name count w' ∧
    heap w' =
      heap w ++ [mkStreamMessage name k v (clock (length (heap w)))
                   (hash k mod count)] ∧
    stored w' name (Z.to_nat (hash k mod count)) (length (heap w)) ∧
    (∀ i x, stored w name i x → stored w' name i x).
Proof.
  intros Hc (Hl & td & Ht & Hp & Hlen).
  pose proof (Z.mod_pos_bound (hash k) count ltac:(lia)) as Hb.
  set (m' := mkStreamMessage name k v (clock (length (heap w))) 0).
  set (w1 := set_heap (heap w ++ [m']) w).
  assert (heap w1 !! length (heap w) = Some m') as Ha1.
  { unfold w1. simpl. by rewrite lookup_app_r, Nat.sub_diag by lia. }
  assert (Z.to_nat (hash k mod count) < length (messages td))%nat as Hi by lia.
  destruct (lookup_lt_is_Some_2 _ _ Hi) as [log Hlog].
  eexists. split.
  { rewrite send_eval. fold m'. fold w1.
    rewrite (publish_known _ m' td) by done. simpl. rewrite Hp.
    rewrite py_mod_pos by lia. by rewrite py_index_in_range by lia. }
  split; [|split; [|split]].
  - split; [done|]. eexists. split; [simpl; by rewrite lookup_insert_eq|].
    simpl. split; [done|]. by rewrite length_alter.
  - simpl. replace (length (heap w)) with (length (heap w) + 0)%nat at 1 by lia.
    by rewrite insert_app_r.
  - eexists _, _. split; [simpl; by rewrite lookup_insert_eq|]. simpl.
    split; [by rewrite list_lookup_alter_eq, Hlog|].
    apply elem_of_app. right. by apply list_elem_of_singleton.
  - intros i x (td0 & log0 & Ht0 & Hl0 & Hx).
    assert (td0 = td) as -> by congruence.
    destruct (decide (i = Z.to_nat (hash k mod count))) as [->|Hne].
    + eexists _, _. split; [simpl; by rewrite lookup_insert_eq|]. simpl.
      split; [by rewrite list_lookup_alter_eq, Hl0|].
      apply elem_of_app. by left.
    + eexists _, _. split; [simpl; by rewrite lookup_insert_eq|]. simpl.
      split; [by rewrite list_lookup_alter_ne|done].
Qed.

Lemma send_batch_from_ready name count msgs :
  1 ≤ count →
  ∀ i sent_count w,
    pipeline_ready name count w →
    ∃ w',
      send_batch_from i name msgs sent_count w =
        Ret (sent_count + length msgs)%nat w' ∧
      pipeline_ready name count w' ∧
      heap w' =
        heap w ++
        imap (λ j v,
                mkStreamMessage name ("key_" +:+ pretty (i + j)%nat) v
                  (clock (length (heap w) + j))
                  (hash ("key_" +:+ pretty (i + j)%nat) mod count))
          msgs ∧
      (∀ j x, stored w name j x → stored w' name j x) ∧
      (∀ j v, msgs !! j = Some v →
         stored w' name
           (Z.to_nat (hash ("key_" +:+ pretty (i + j)%nat) mod count))
           (length (heap w) + j)).
Proof.
  intros Hc. induction msgs as [|msg msgs IH]; intros i sent_count w Hready.
  - exists w. simpl. unfold ret. rewrite Nat.add_0_r, app_nil_r.
    split; [done|]. split; [done|]. split; [done|]. split; [done|].
    intros j v Hj. by rewrite lookup_nil in Hj.
  - destruct (send_to_ready_topic name ("key_" +:+ pretty i) msg count w Hc Hready)
      as (w1 & Hsend & Hready1 & Hheap1 & Hst1 & Hmono1).
    destruct (IH (S i) (S sent_count) w1 Hready1)
      as (w' & Hrun & Hready' & Hheap' & Hmono' & Hst').
    exists w'. split.
    { simpl. unfold bind at 1. rewrite Hsend, Hrun. f_equal. lia. }
    split; [done|]. split; [|split].
    + rewrite Hheap', Hheap1, <- app_assoc. f_equal.
      rewrite imap_cons. simpl. f_equal; [by rewrite !Nat.add_0_r|].
      apply imap_ext. intros j v _. simpl. rewrite length_app. simpl.
      replace (S (i + j)) with (i + S j)%nat by lia.
      by replace (length (heap w) + 1 + j)%nat
           with (length (heap w) + S j)%nat by lia.
    + intros j x Hs. by apply Hmono', Hmono1.
    + intros [|j] v Hj; simpl in Hj.
      * rewrite !Nat.add_0_r. by apply Hmono'.
      * specialize (Hst' j v Hj). rewrite Hheap1, length_app in Hst'.
        simpl in Hst'.
        replace (i + S j)%nat with (S (i + j)) by lia.
        by replace (length (heap w) + S j)%nat
             with (length (heap w) + 1 + j)%nat by lia.
Qed.

(** X4. On an existing topic with at least one partition [send_batch]
    sends every message: it returns the length of the batch, builds one
    message object per payload, in order, under the keys [key_0],
    [key_1], ..., each with the partition its key routes to, and stores
    each in the log of that partition. *)
Theorem send_batch_sends_all name msgs td w :
  lock (broker w) = false →
  topics (broker w) !! name = Some td →
  topic_wf td →
  1 ≤ partitions td →
  ∃ w',
    send_batch name msgs w = Ret (length msgs) w' ∧
    heap w' =
      heap w ++
      imap (λ j v,
              mkStreamMessage name ("key_" +:+ pretty j) v
                (clock (length (heap w) + j))
                (hash ("key_" +:+ pretty j) mod partitions td))
        msgs ∧
    (∀ j v, msgs !! j = Some v →
       stored w' name
         (Z.to_nat (hash ("key_" +:+ pretty j) mod partitions td))
         (length (heap w) + j)) ∧
    lock (broker w') = false.
Proof.
  intros Hl Ht Hwf Hp.
  destruct (send_batch_from_ready name (partitions td) msgs Hp 0 0 w)
    as (w' & Hrun & (Hl' & _) & Hheap & _ & Hst).
  { split; [done|]. by exists td. }
  exists w'. split; [exact Hrun|]. split; [exact Hheap|]. split; [exact Hst|done].
Qed.

Lemma send_rejected name k v td w :
  lock (broker w) = false →
  topics (broker w) !! name = Some td →
  topic_wf td →
  partitions td ≤ 0 →
  ∃ w',
    send name k v w = Ret false w' ∧
    lock (broker w') = false ∧
    topics (broker w') = topics (broker w) ∧
    length (heap w') = S (length (heap w)).
Proof.
  intros Hl Ht Hwf Hp. unfold topic_wf in Hwf.
  set (m' := mkStreamMessage name k v (clock (length (heap w))) 0).
  assert (heap (set_heap (heap w ++ [m']) w) !! length (heap w) = Some m') as Ha1.
  { simpl. by rewrite lookup_app_r, Nat.sub_diag by lia. }
  rewrite send_eval. fold m'.
  rewrite (publish_known _ m' td) by done. simpl.
  destruct (py_mod (hash k) (partitions td)) as [e|p].
  - eexists. split; [done|]. split; [done|]. split; [done|].
    simpl. rewrite length_app. simpl. lia.
  - rewrite Hwf, Z2Nat.nonpos, py_index_empty by lia.
    eexists. split; [done|]. split; [done|]. split; [done|].
    simpl. rewrite length_insert, length_app. simpl. lia.
Qed.

(** X5. On a topic created with zero or a negative number of
    partitions [send_batch] sends nothing: it returns 0 whatever the
    batch, the topic is as it was, and the message objects it built
    (one per payload) are stored nowhere. *)
Theorem send_batch_sends_none name msgs td w :
  lock (broker w) = false →
  topics (broker w) !! name = Some td →
  topic_wf td →
  partitions td ≤ 0 →
  ∃ w',
    send_batch name msgs w = Ret O w' ∧
    topics (broker w') = topics (broker w) ∧
    length (heap w') = (length (heap w) + length msgs)%nat ∧
    lock (broker w') = false.
Proof.
  intros Hl Ht Hwf Hp. unfold send_batch. generalize 0%nat at 1.
  revert w Hl Ht. induction msgs as [|msg msgs IH]; intros w Hl Ht i.
  - exists w. simpl. split; [done|]. split; [done|]. split; [lia|done].
  - destruct (send_rejected name ("key_" +:+ pretty i) msg td w Hl Ht Hwf Hp)
      as (w1 & Hsend & Hl1 & Ht1 & Hlen1).
    destruct (IH w1 Hl1 ltac:(by rewrite Ht1) (S i))
      as (w' & Hrun & Ht' & Hlen' & Hl').
    exists w'. split.
    { simpl. unfold bind at 1. by rewrite Hsend. }
    split; [by rewrite Ht', Ht1|]. split; [simpl; lia|done].
Qed.

(** X6. [send_batch] to a topic that was never created does not
    return as soon as the batch has one message: the first [send]
    blocks in [publish] with the lock held, no count is returned and
    the topic is not created.  Only the empty batch returns (0), and it
    creates nothing. *)
Theorem send_batch_unknown_topic_blocks name msg msgs w :
  lock (broker w) = false →
  topics (broker w) !! name = None →
  (∃ w',
     send_batch name (msg :: msgs) w = Blocked w' ∧
     lock (broker w') = true ∧
     topics (broker w') = topics (broker w)) ∧
  send_batch name [] w = Ret O w.
Proof.
  intros Hl Ht. split; [|done].
  set (m' := mkStreamMessage name ("key_" +:+ pretty 0%nat) msg
               (clock (length (heap w))) 0).
  eexists. split.
  - unfold send_batch. simpl. unfold bind at 1. rewrite send_eval. fold m'.
    rewrite (publish_unknown _ m'); [done|done| |done].
    simpl. by rewrite lookup_app_r, Nat.sub_diag by lia.
  - by split.
Qed.

(** ** Routing and histories *)

Lemma publish_accepted a m w w' :
  broker_wf (broker w) →
  heap w !! a = Some m →
  publish a w = Ret true w' →
  ∃ td,
    topics (broker w) !! topic m = Some td ∧
    0 < partitions td ∧
    heap w' !! a = Some (with_partition (hash (key m) mod partitions td) m) ∧
    settled w' a ∧
    evolves w w'.
Proof.
  intros Hwf Ha Hpub. pose proof (publish_evolves a w) as Hev.
  rewrite Hpub in Hev. simpl in Hev.
  rewrite publish_eval, Ha in Hpub.
  destruct (lock (broker w)) eqn:Hl; [done|].
  destruct (topics (broker w) !! topic m) as [td|] eqn:Ht; [|done].
  unfold py_mod in Hpub. destruct (partitions td =? 0) eqn:Hz; [done|].
  destruct (py_index (length (messages td)) (hash (key m) mod partitions td))
    as [e|i] eqn:Hi; [done|].
  injection Hpub as <-. exists td.
  assert (0 < partitions td) as Hpos.
  { pose proof (Hwf _ _ Ht) as Hlen. unfold topic_wf in Hlen.
    destruct (decide (0 < partitions td)) as [|Hneg]; [done|].
    rewrite Hlen, Z2Nat.nonpos, py_index_empty in Hi by lia. done. }
  assert (heap (published a m td (hash (key m) mod partitions td) i w) !! a =
            Some (with_partition (hash (key m) mod partitions td) m)) as Ha'.
  { unfold published. simpl. apply list_lookup_insert_eq.
    by eapply lookup_lt_Some. }
  split; [done|]. split; [done|]. split; [done|]. split; [|done].
  eexists _, _. split; [exact Ha'|]. simpl. split.
  - by rewrite lookup_insert_eq.
  - by rewrite py_mod_pos.
Qed.

(** X7. Partition determinism: two messages with the same topic and
    the same key that [publish] accepts, whatever the broker did
    between the two calls, end with the same partition. *)
Theorem same_key_same_partition a b ma mb ops w w1 w3 :
  broker_wf (broker w) →
  heap w !! a = Some ma →
  publish a w = Ret true w1 →
  heap (state_of (run_ops ops w1)) !! b = Some mb →
  topic mb = topic ma →
  key mb = key ma →
  publish b (state_of (run_ops ops w1)) = Ret true w3 →
  ∃ p, partition <$> heap w3 !! a = Some p ∧
       partition <$> heap w3 !! b = Some p.
Proof.
  intros Hwf Ha Hpa Hb Htopic Hkey Hpb.
  destruct (publish_accepted a ma w w1 Hwf Ha Hpa)
    as (td & Ht & Hpos & Ha1 & Hset1 & Hev1).
  pose proof (run_ops_evolves ops w1) as Hev2.
  set (w2 := state_of (run_ops ops w1)) in *.
  assert (broker_wf (broker w2)) as Hwf2.
  { destruct Hev1 as (_ & _ & _ & H1), Hev2 as (_ & _ & _ & H2). auto. }
  destruct (publish_accepted b mb w2 w3 Hwf2 Hb Hpb)
    as (td2 & Ht2 & _ & Hb3 & _ & Hev3).
  assert (partitions td2 = partitions td) as Hsame.
  { destruct Hev1 as (Htop1 & _), Hev2 as (Htop2 & _).
    destruct (Htop1 _ _ Ht) as (td1 & Ht1 & Hp1 & _).
    destruct (Htop2 _ _ Ht1) as (td2' & Ht2' & Hp2 & _).
    rewrite Htopic in Ht2. congruence. }
  exists (hash (key ma) mod partitions td). split.
  - pose proof (settled_evolves w1 w2 a Hev2 Hset1) as Hset2.
    destruct Hev2 as (_ & _ & Hs2 & _), Hev3 as (_ & _ & Hs3 & _).
    by rewrite (Hs3 a Hset2), (Hs2 a Hset1), Ha1.
  - by rewrite Hb3, Hkey, Hsame.
Qed.

(** X8. No history of operations deletes a topic, changes its
    partition count or changes the number of its logs, whether the
    history runs to completion, ends blocked or is ended by an
    exception. *)
Theorem topics_outlive_every_history ops name td w :
  topics (broker w) !! name = Some td →
  ∃ td',
    topics (broker (state_of (run_ops ops w))) !! name = Some td' ∧
    partitions td' = partitions td ∧
    length (messages td') = length (messages td).
Proof.
  intros Ht. destruct (run_ops_evolves ops w) as (Htop & _).
  destruct (Htop name td Ht) as (td' & Ht' & Hp & Hlen).
  exists td'. by split.
Qed.








(** ** When operations block *)

Lemma fresh_object_lookup (h : list StreamMessage) m :
  (h ++ [m]) !! length h = Some m.
Proof. by rewrite lookup_app_r, Nat.sub_diag by lia. Qed.

(** X10. With the lock free, an operation blocks exactly when it
    reaches [publish] with a message of a topic that does not exist: a
    [publish] of such a message, a [send] to such a topic, or a
    processor's handler whose transform returned and whose output topic
    is unknown.  [create_topic], [consume] and [add_consumer] never
    block, and neither does a handler whose transform raised. *)
Theorem blocks_exactly_on_unknown_topic o w :
  lock (broker w) = false →
  (∃ w', run_op o w = Blocked w') ↔ hits_unknown_topic w o.
Proof.
  intros Hl. destruct o; simpl.
  - rewrite create_topic_eval, Hl. split; [|done].
    intros [w' H]. by destruct (topics (broker w) !! name).
  - unfold bind, ret. rewrite publish_eval, Hl. split.
    + intros [w' H]. destruct (heap w !! message) as [m|]; [|done].
      exists m. split; [done|].
      destruct (topics (broker w) !! topic m) as [td|]; [|done].
      by repeat case_match.
    + intros (m & -> & ->). by eexists.
  - unfold bind, ret. rewrite consume_eval, Hl. split; [|done].
    intros [w' H]. by destruct (topics (broker w) !! name).
  - rewrite add_consumer_eval. split; [|done]. by intros [w' H].
  - unfold bind, ret. rewrite send_eval, publish_eval. simpl.
    rewrite Hl, fresh_object_lookup. simpl. split.
    + intros [w' H]. destruct (topics (broker w) !! name) as [td|]; [|done].
      by repeat case_match.
    + intros ->. by eexists.
  - rewrite processor_handler_eval. split.
    + intros [w' H]. destruct (heap w !! message) as [m|]; [|done].
      destruct (transform_func (value m)) as [e|v] eqn:Hf;
        [by destruct (is_Exception e)|].
      exists m, v. split; [done|]. split; [done|].
      rewrite publish_eval in H. simpl in H.
      rewrite Hl, fresh_object_lookup in H. simpl in H.
      destruct (topics (broker w) !! output_topic) as [td|]; [|done].
      by repeat case_match.
    + intros (m & v & -> & -> & Ht).
      rewrite publish_eval. simpl.
      rewrite Hl, fresh_object_lookup. simpl. rewrite Ht. by eexists.
Qed.

Lemma evolves_dom w w' :
  evolves w w' → dom (topics (broker w)) ⊆ dom (topics (broker w')).
Proof.
  intros (Htop & _) name [td Ht]%elem_of_dom.
  destruct (Htop name td Ht) as (td' & Ht' & _). apply elem_of_dom. by exists td'.
Qed.

Lemma heap_within_assign T a m p w :
  heap w !! a = Some m →
  heap_within T w →
  heap_within T (set_heap (<[a := with_partition p m]> (heap w)) w).
Proof.
  intros Ha Hin b mb. simpl. destruct (decide (b = a)) as [->|Hne].
  - rewrite list_lookup_insert_eq by by eapply lookup_lt_Some.
    intros [= <-]. simpl. by eapply Hin.
  - rewrite list_lookup_insert_ne by done. apply Hin.
Qed.

Lemma publish_within T a w :
  lock (broker w) = false →
  T ⊆ dom (topics (broker w)) →
  heap_within T w →
  ∃ accepted w',
    publish a w = Ret accepted w' ∧
    lock (broker w') = false ∧
    heap_within T w'.
Proof.
  intros Hl Hsub Hin. rewrite publish_eval, Hl.
  destruct (heap w !! a) as [m|] eqn:Ha; [|by eexists _, _].
  assert (is_Some (topics (broker w) !! topic m)) as [td Ht].
  { apply elem_of_dom, Hsub. by eapply Hin. }
  rewrite Ht.
  destruct (py_mod (hash (key m)) (partitions td)) as [e|p]; [by eexists _, _|].
  destruct (py_index (length (messages td)) p) as [e|i].
  - eexists _, _. split; [done|]. split; [done|]. by apply heap_within_assign.
  - eexists _, _. split; [done|]. split; [done|].
    by apply (heap_within_assign T a m p w).
Qed.

Lemma send_within T name k v w :
  lock (broker w) = false →
  T ⊆ dom (topics (broker w)) →
  heap_within T w →
  name ∈ T →
  ∃ accepted w',
    send name k v w = Ret accepted w' ∧
    lock (broker w') = false ∧
    heap_within T w'.
Proof.
  intros Hl Hsub Hin Hname. rewrite send_eval.
  apply publish_within; [done|done|].
  intros a m. simpl. intros [Ha|[_ Ha]]%lookup_app_Some.
  - by eapply Hin.
  - by apply list_lookup_singleton_Some in Ha as [_ <-].
Qed.

Lemma run_op_within T o w :
  lock (broker w) = false →
  T ⊆ dom (topics (broker w)) →
  heap_within T w →
  sends_within T o →
  (∃ w', run_op o w = Ret tt w' ∧
         lock (broker w') = false ∧
         heap_within T w') ∨
  (∃ e, run_op o w = Raise e w ∧ ¬ faults_caught o).
Proof.
  intros Hl Hsub Hin Ho. destruct o; simpl in *.
  - left. rewrite create_topic_eval, Hl.
    destruct (topics (broker w) !! name); by eexists.
  - left.
    destruct (publish_within T message w Hl Hsub Hin) as (b & w' & Hp & Hl' & Hin').
    exists w'. unfold bind, ret. by rewrite Hp.
  - left. unfold bind, ret. rewrite consume_eval, Hl.
    destruct (topics (broker w) !! name); by eexists.
  - left. rewrite add_consumer_eval. by eexists.
  - left.
    destruct (send_within T name k v w Hl Hsub Hin Ho) as (b & w' & Hp & Hl' & Hin').
    exists w'. unfold bind, ret. by rewrite Hp.
  - rewrite processor_handler_eval.
    destruct (heap w !! message) as [m|]; [|left; by eexists].
    destruct (transform_func (value m)) as [e|v] eqn:Hf.
    + destruct (is_Exception e) eqn:He; [left; by eexists|].
      right. exists e. split; [done|]. intros Hcaught.
      rewrite (Hcaught _ _ Hf) in He. done.
    + left.
      destruct (send_within T output_topic (key m) v w Hl Hsub Hin Ho)
        as (b & w' & Hp & Hl' & Hin').
      rewrite send_eval in Hp. exists w'. by rewrite Hp.
Qed.

(** X11. Creating the topics first rules the deadlock out: when every
    message object is of a created topic, no history that sends and
    republishes only to created topics blocks; and when its transforms
    raise nothing but [Exception]s, the history runs to completion with
    the lock free and leaves a world of which the same holds. *)
Theorem created_topics_never_block T ops w :
  lock (broker w) = false →
  T ⊆ dom (topics (broker w)) →
  heap_within T w →
  Forall (sends_within T) ops →
  (∀ w', run_ops ops w ≠ Blocked w') ∧
  (Forall faults_caught ops →
   ∃ w',
     run_ops ops w = Ret tt w' ∧
     lock (broker w') = false ∧
     T ⊆ dom (topics (broker w')) ∧
     heap_within T w').
Proof.
  intros Hl Hsub Hin Hops. revert w Hl Hsub Hin.
  induction Hops as [|o ops Ho _ IH]; intros w Hl Hsub Hin.
  - split; [done|]. intros _. by exists w.
  - unfold run_ops in *. simpl. unfold bind at 1 2.
    destruct (run_op_within T o w Hl Hsub Hin Ho)
      as [(w1 & Hrun & Hl1 & Hin1)|(e & Hrun & Hno)].
    + pose proof (run_op_evolves o w) as Hev. rewrite Hrun in Hev. simpl in Hev.
      rewrite Hrun.
      destruct (IH w1 Hl1) as [Hnb Hret]; [|done|].
      { etrans; [exact Hsub|]. by apply evolves_dom. }
      split; [done|]. intros [_ Hall]%Forall_cons. by apply Hret.
    + rewrite Hrun. split; [done|]. by intros [? _]%Forall_cons.
Qed.

(** ** Edge cases of publish and consume *)

(** X12. A topic can be created with a negative partition count; it
    has no logs.  Publishing to it returns [False] and leaves the topics
    as they are, but not the message: [publish] has already assigned it
    the remainder of the hash by the negative count, a partition that
    is zero or negative and names no log. *)
Theorem negative_partition_count_marks_rejected_message a m td w :
  lock (broker w) = false →
  heap w !! a = Some m →
  topics (broker w) !! topic m = Some td →
  topic_wf td →
  partitions td < 0 →
  messages td = [] ∧
  ∃ w',
    publish a w = Ret false w' ∧
    topics (broker w') = topics (broker w) ∧
    heap w' !! a = Some (with_partition (hash (key m) mod partitions td) m) ∧
    partitions td < hash (key m) mod partitions td ≤ 0 ∧
    (∀ name count w0,
       lock (broker w0) = false →
       topics (broker w0) !! name = None →
       count < 0 →
       ∃ w1, create_topic name count w0 = Ret tt w1 ∧
             topics (broker w1) !! name = Some (mkTopicData count [])).
Proof.
  intros Hl Ha Ht Hwf Hp. unfold topic_wf in Hwf.
  rewrite Z2Nat.nonpos in Hwf by lia.
  assert (messages td = []) as Hm by by destruct (messages td).
  split; [done|].
  rewrite (publish_known a m td) by done.
  unfold py_mod. destruct (Z.eqb_spec (partitions td) 0) as [|_]; [lia|].
  rewrite Hm. simpl. rewrite py_index_empty.
  eexists. split; [done|]. split; [done|]. split.
  { simpl. apply list_lookup_insert_eq. by eapply lookup_lt_Some. }
  split; [apply Z.mod_neg_bound; lia|].
  intros name count w0 Hl0 Ht0 Hc. eexists. split; [by apply create_topic_fresh|].
  simpl. rewrite lookup_insert_eq. by rewrite Z2Nat.nonpos by lia.
Qed.

(** X13. Consumer groups do not have offsets of their own: what a
    consumer of one group takes is gone for every other group.  A
    second [consume], under any group and with any bound, is served
    from what the first left in the logs, and gets nothing when the
    first bound covered every log. *)
Theorem groups_share_the_logs name group1 group2 max1 max2 td w :
  lock (broker w) = false →
  topics (broker w) !! name = Some td →
  ∃ w1 w2,
    consume name group1 max1 w = Ret (concat (taken max1 <$> messages td)) w1 ∧
    consume name group2 max2 w1 =
      Ret (concat (taken max2 <$> (left_over max1 <$> messages td))) w2 ∧
    (Forall (λ log, Z.of_nat (length log) ≤ max1) (messages td) →
     consume name group2 max2 w1 = Ret [] w1).
Proof.
  intros Hl Ht. eexists _, _. split; [by apply consume_known|].
  split.
  - rewrite (consume_known _ _ _ _
               (mkTopicData (partitions td) (left_over max1 <$> messages td)));
      [done|done|]. simpl. by rewrite lookup_insert_eq.
  - intros Hall.
    apply (consume_nothing_left _ _ _
             (mkTopicData (partitions td) (left_over max1 <$> messages td)));
      [done|simpl; by rewrite lookup_insert_eq|].
    simpl. apply Forall_fmap. eapply Forall_impl; [exact Hall|].
    intros log Hlen. simpl in *. unfold left_over. fold (taken max1 log).
    rewrite taken_nonneg by lia. rewrite take_ge by lia. by rewrite drop_all.
Qed.

Lemma discard_batch c batch w :
  message_handler c = None → for_each batch (handle c) w = Ret tt w.
Proof.
  intros Hh. induction batch as [|a batch IH]; [done|].
  simpl. unfold bind at 1. unfold handle at 1. rewrite Hh. exact IH.
Qed.

Lemma sweep_without_handler c names :
  message_handler c = None →
  NoDup names →
  ∀ w,
    lock (broker w) = false →
    ∃ w',
      sweep c names w = Ret tt w' ∧
      lock (broker w') = false ∧
      heap w' = heap w ∧
      handled w' = handled w ∧
      ∀ name td,
        topics (broker w) !! name = Some td →
        topics (broker w') !! name =
          Some (if decide (name ∈ names)
                then mkTopicData (partitions td) (left_over 10 <$> messages td)
                else td).
Proof.
  intros Hh Hnd. induction Hnd as [|n names Hn Hnd IH]; intros w Hl.
  - exists w. split; [done|]. split; [done|]. split; [done|]. split; [done|].
    intros name td Ht. rewrite Ht.
    by rewrite decide_False by apply not_elem_of_nil.
  - assert (∃ batch w1, consume n (group_id c) 10 w = Ret batch w1 ∧
                  lock (broker w1) = false ∧ heap w1 = heap w ∧
                  handled w1 = handled w ∧
                  ∀ name td,
                    topics (broker w) !! name = Some td →
                    topics (broker w1) !! name =
                      Some (if decide (name = n)
                            then mkTopicData (partitions td)
                                   (left_over 10 <$> messages td)
                            else td))
      as (batch & w1 & Hcons & Hl1 & Hh1 & Hd1 & Ht1).
    { rewrite consume_eval, Hl.
      destruct (topics (broker w) !! n) as [tdn|] eqn:Htn; simpl.
      - eexists _, _. split; [done|]. split; [done|]. split; [done|].
        split; [done|].
        intros name td Ht. simpl. destruct (decide (name = n)) as [->|Hne].
        + rewrite lookup_insert_eq. congruence.
        + by rewrite lookup_insert_ne.
      - exists [], w. split; [done|]. split; [done|]. split; [done|].
        split; [done|].
        intros name td Ht. destruct (decide (name = n)) as [->|Hne]; [congruence|done]. }
    destruct (IH w1 Hl1) as (w' & Hrun & Hl' & Hh' & Hd' & Ht').
    exists w'. split.
    { unfold sweep in *. simpl. unfold bind at 1 2. rewrite Hcons.
      by rewrite discard_batch. }
    split; [done|]. split; [congruence|]. split; [congruence|].
    intros name td Ht. rewrite (Ht' name _ (Ht1 name td Ht)).
    f_equal. destruct (decide (name = n)) as [->|Hne].
    + rewrite decide_False by done. rewrite decide_True; [done|]. by left.
    + destruct (decide (name ∈ names)) as [Hin|Hnin].
      * rewrite decide_True; [done|]. by right.
      * rewrite decide_False; [done|]. intros [?|?]%elem_of_cons; done.
Qed.

(** X14. A consumer without a handler discards what it polls: one
    iteration of its loop takes up to ten records from every partition
    of every subscribed topic, hands them to nobody and returns; the
    records are removed from the logs, the other topics and the message
    objects are untouched. *)
Theorem consumer_without_handler_discards c w :
  message_handler c = None →
  lock (broker w) = false →
  ∃ w',
    poll_once c w = Ret tt w' ∧
    handled w' = handled w ∧
    heap w' = heap w ∧
    ∀ name td,
      topics (broker w) !! name = Some td →
      topics (broker w') !! name =
        Some (if decide (name ∈ subscribed_topics c)
              then mkTopicData (partitions td) (left_over 10 <$> messages td)
              else td).
Proof.
  intros Hh Hl.
  destruct (sweep_without_handler c (elements (subscribed_topics c)) Hh
              (NoDup_elements _) w Hl) as (w' & Hrun & _ & Hheap & Hhd & Ht).
  exists w'. split; [|split; [done|split; [done|]]].
  - unfold poll_once, try_except. by rewrite Hrun.
  - intros name td Hname. rewrite (Ht name td Hname). f_equal.
    destruct (decide (name ∈ subscribed_topics c)) as [Hin|Hnin].
    + rewrite decide_True; [done|]. by apply elem_of_elements.
    + rewrite decide_False; [done|]. by rewrite elem_of_elements.
Qed.

(** ** The processor registry *)

Lemma stop_all_processors_spec r :
  (∀ c, consumer_objects (stop_all_processors r) !! c = consumer_objects r !! c ∨
        consumer_objects (stop_all_processors r) !! c =
          set_running false <$> consumer_objects r !! c) ∧
  (∀ name e,
     processors r !! name = Some e →
     consumer_objects (stop_all_processors r) !! entry_consumer e =
       set_running false <$> consumer_objects r !! entry_consumer e) ∧
  (∀ c,
     (∀ name e, processors r !! name = Some e → entry_consumer e ≠ c) →
     consumer_objects (stop_all_processors r) !! c = consumer_objects r !! c).
Proof.
  unfold stop_all_processors. simpl.
  apply (map_fold_weak_ind
           (λ objs (m : gmap string ProcessorEntry),
              (∀ c, objs !! c = consumer_objects r !! c ∨
                    objs !! c = set_running false <$> consumer_objects r !! c) ∧
              (∀ name e, m !! name = Some e →
                 objs !! entry_consumer e =
                   set_running false <$> consumer_objects r !! entry_consumer e) ∧
              (∀ c, (∀ name e, m !! name = Some e → entry_consumer e ≠ c) →
                 objs !! c = consumer_objects r !! c))).
  - split; [by left|]. split; [|done]. intros name e H.
    by rewrite lookup_empty in H.
  - intros i x m objs Hi (H1 & H2 & H3).
    assert (stop_consuming (entry_consumer x) objs !! entry_consumer x =
              set_running false <$> consumer_objects r !! entry_consumer x)
      as Hx.
    { unfold stop_consuming. rewrite lookup_alter_eq.
      destruct (H1 (entry_consumer x)) as [->| ->]; [done|].
      by destruct (consumer_objects r !! entry_consumer x). }
    split; [|split].
    + intros c. destruct (decide (c = entry_consumer x)) as [->|Hne].
      * by right.
      * unfold stop_consuming. rewrite lookup_alter_ne by done. apply H1.
    + intros name e Hname.
      destruct (decide (entry_consumer e = entry_consumer x)) as [->|Hne].
      * done.
      * unfold stop_consuming. rewrite lookup_alter_ne by done.
        destruct (decide (name = i)) as [->|Hni].
        -- rewrite lookup_insert_eq in Hname. congruence.
        -- rewrite lookup_insert_ne in Hname by done. by eapply H2.
    + intros c Hc. unfold stop_consuming.
      rewrite lookup_alter_ne.
      * apply H3. intros name e Hname. apply (Hc name).
        rewrite lookup_insert_ne; [done|]. congruence.
      * apply (Hc i). by rewrite lookup_insert_eq.
Qed.

Lemma register_processor_eval self name input_topic output_topic transform_func r w :
  register_processor self name input_topic output_topic transform_func r w =
    Ret (mkRegistry
           (<[self := mkStreamConsumer self ("processor_" +:+ name)
                        (∅ ∪ {[input_topic]}) false
                        (Some (processor_handler output_topic transform_func))]>
              (consumer_objects r))
           (<[name := mkProcessorEntry self input_topic output_topic]>
              (processors r)))
      (set_broker
         (set_consumers
            (<[input_topic :=
                 default [] (consumers (broker w) !! input_topic) ++ [self]]>
               (consumers (broker w)))
            (broker w))
         w).
Proof.
  unfold register_processor, add_processor. unfold bind at 1.
  by rewrite subscribe_one_eval.
Qed.

(** X15. Registering a second processor under a name already in use
    rebinds the name: the registry then knows the second consumer only.
    Once both threads have set their running flag,
    [stop_all_processors] clears the flag of the second consumer and
    never reaches the first, whose loop goes on. *)
Theorem rebound_processor_is_never_stopped self1 self2 name in1 out1 f1
    in2 out2 f2 r w :
  self1 ≠ self2 →
  (∀ other e, processors r !! other = Some e → entry_consumer e ≠ self1) →
  ∃ r1 w1 r2 w2,
    register_processor self1 name in1 out1 f1 r w = Ret r1 w1 ∧
    register_processor self2 name in2 out2 f2
      (mkRegistry (thread_begins self1 (consumer_objects r1)) (processors r1))
      w1 = Ret r2 w2 ∧
    processors r2 !! name = Some (mkProcessorEntry self2 in2 out2) ∧
    running <$>
      consumer_objects
        (stop_all_processors
           (mkRegistry (thread_begins self2 (consumer_objects r2)) (processors r2)))
        !! self1 = Some true ∧
    running <$>
      consumer_objects
        (stop_all_processors
           (mkRegistry (thread_begins self2 (consumer_objects r2)) (processors r2)))
        !! self2 = Some false.
Proof.
  intros Hne Hfresh.
  eexists _, _, _, _. split; [apply register_processor_eval|].
  split; [apply register_processor_eval|].
  split; [simpl; by rewrite lookup_insert_eq|].
  match goal with
  | |- context [stop_all_processors ?reg] =>
      set (R := reg);
      destruct (stop_all_processors_spec R) as (_ & Hstop & Hkeep)
  end.
  split.
  - rewrite Hkeep.
    + subst R. simpl. unfold thread_begins.
      rewrite lookup_alter_ne, lookup_insert_ne by done.
      by rewrite lookup_alter_eq, lookup_insert_eq.
    + subst R. simpl. intros other e.
      destruct (decide (other = name)) as [->|Hn].
      * rewrite lookup_insert_eq. by intros [= <-].
      * rewrite !lookup_insert_ne by done. apply Hfresh.
  - pose proof (Hstop name (mkProcessorEntry self2 in2 out2)) as Hs.
    change (entry_consumer (mkProcessorEntry self2 in2 out2)) with self2 in Hs.
    rewrite Hs by (subst R; simpl; by rewrite lookup_insert_eq).
    subst R. simpl. unfold thread_begins.
    by rewrite lookup_alter_eq, lookup_insert_eq.
Qed.

(** ** The pipeline that [main] sets up *)

Lemma main_setup_eval self processed_at :
  main_setup self processed_at new_world =
    Ret (mkRegistry
           {[self := mkStreamConsumer self "processor_event_aggregator"
                       (∅ ∪ {["user_events"]}) false
                       (Some (processor_handler "processed_events"
                                (aggregate_events processed_at)))]}
           {["event_aggregator" :=
               mkProcessorEntry self "user_events" "processed_events"]})
      (mkWorld []
         (mkStreamBroker
            (<["processed_events" := mkTopicData 2 [[]; []]]>
               (<["sensor_data" := mkTopicData 2 [[]; []]]>
                  (<["user_events" := mkTopicData 3 [[]; []; []]]> ∅)))
            (<["user_events" := [self]]>
               (<["processed_events" := []]>
                  (<["sensor_data" := []]>
                     (<["user_events" := []]> ∅))))
            false)
         []).
Proof.
  unfold main_setup. unfold bind at 1.
  rewrite create_topic_fresh by done. unfold bind at 1.
  rewrite create_topic_fresh by done. unfold bind at 1.
  rewrite create_topic_fresh by done.
  rewrite register_processor_eval. done.
Qed.

(** X16. The pipeline of [main], end to end.  On a new broker [main]
    creates [user_events], [sensor_data] and [processed_events] and
    registers the [event_aggregator] processor.  Then a [send] to
    [user_events], with any key and any payload on which
    [aggregate_events] returns, is accepted, and one iteration of the
    processor's loop hands that record to the handler and leaves in
    [processed_events] a message with the same key and the aggregated
    payload, in the log the key routes to. *)
Theorem main_pipeline_end_to_end self processed_at k v tv :
  aggregate_events processed_at v = inr tv →
  ∃ r w0 c w1 w2 a' ts,
    main_setup self processed_at new_world = Ret r w0 ∧
    processors r !! "event_aggregator" =
      Some (mkProcessorEntry self "user_events" "processed_events") ∧
    consumer_objects r !! self = Some c ∧
    send "user_events" k v w0 = Ret true w1 ∧
    poll_once c w1 = Ret tt w2 ∧
    handled w2 = [0%nat] ∧
    heap w2 !! a' =
      Some (mkStreamMessage "processed_events" k tv ts (hash k mod 2)) ∧
    stored w2 "processed_events" (Z.to_nat (hash k mod 2)) a'.
Proof.
  intros Hf.
  pose proof (main_setup_eval self processed_at) as Hsetup.
  match type of Hsetup with
  | _ = Ret ?r ?w => set (r0 := r) in *; set (w0 := w) in *
  end.
  set (c := mkStreamConsumer self "processor_event_aggregator"
              (∅ ∪ {["user_events"]}) false
              (Some (processor_handler "processed_events"
                       (aggregate_events processed_at)))) in *.
  pose proof (Z.mod_pos_bound (hash k) 3 ltac:(lia)) as Hb.
  set (m := mkStreamMessage "user_events" k v (clock 0) 0).
  set (td := mkTopicData 3 [[]; []; []]).
  set (i := Z.to_nat (hash k mod 3)).
  set (w1 := published 0 m td (hash k mod 3) i (set_heap [m] w0)).
  assert (send "user_events" k v w0 = Ret true w1) as Hsend.
  { rewrite send_eval.
    change (heap w0 ++ _) with [m]. change (length (heap w0)) with O.
    rewrite (publish_known 0 m td); [|done|done|done].
    change (py_mod (hash (key m)) (partitions td)) with (@inr exn Z (hash k mod 3)).
    cbv beta iota.
    change (length (messages td)) with 3%nat.
    by rewrite py_index_in_range by lia. }
  set (logs := alter (λ log, log ++ [0%nat]) i [[]; []; []]).
  assert (concat (taken 10 <$> logs) = [0%nat]) as Hbatch.
  { unfold logs. assert (i < 3)%nat as Hi by (unfold i; lia).
    clearbody i. clear -Hi. destruct i as [|[|[|?]]]; [done|done|done|lia]. }
  set (w1' := set_broker
                (set_topics
                   (<["user_events" :=
                        mkTopicData 3 (left_over 10 <$> logs)]>
                      (topics (broker w1)))
                   (broker w1))
                w1).
  assert (consume "user_events" "processor_event_aggregator" 10 w1 =
            Ret [0%nat] w1') as Hcons.
  { rewrite (consume_known _ _ _ _ (mkTopicData 3 logs)); [|done|done].
    unfold messages at 1. by rewrite Hbatch. }
  destruct (processor_batch_republishes c "processed_events"
              (aggregate_events processed_at) 2 [0%nat] ltac:(lia) eq_refl
              (aggregate_events_raises processed_at) w1')
    as (w2 & Hrun & _ & Hhd & _ & _ & Hnew).
  { split; [done|]. by exists (mkTopicData 2 [[]; []]). }
  destruct (Hnew 0%nat (with_partition (hash k mod 3) m) tv)
    as (a' & ts & Ha' & Hst); [by left|done|exact Hf|].
  assert (poll_once c w1 = Ret tt w2) as Hpoll.
  { unfold poll_once, try_except.
    change (subscribed_topics c) with (∅ ∪ {["user_events"]} : gset string).
    rewrite union_empty_l_L, elements_singleton.
    unfold sweep. cbn [for_each]. unfold bind at 1 2.
    change (group_id c) with "processor_event_aggregator".
    rewrite Hcons. by rewrite Hrun. }
  exists r0, w0, c, w1, w2, a', ts.
  split; [exact Hsetup|]. split; [apply lookup_singleton_eq|].
  split; [apply lookup_singleton_eq|]. split; [exact Hsend|].
  split; [exact Hpoll|]. split; [exact Hhd|]. split; [exact Ha'|exact Hst].
Qed.

End Operations.

(** ** The properties on the sample worlds *)

(** [create_topic("t", 4)] followed by [create_topic("t", 9)] on a new
    broker: the topic keeps its four partitions. *)
Lemma create_topic_4_then_9 :
  ∃ w1,
    create_topic "t" 4 new_world = Ret tt w1 ∧
    create_topic "t" 9 w1 = Ret tt w1 ∧
    topics (broker w1) !! "t" = Some (mkTopicData 4 [[]; []; []; []]).
Proof.
  destruct (create_topic_idempotent "t" 4 9 new_world eq_refl)
    as (w1 & H1 & H2 & _ & H3).
  exists w1. split; [exact H1|]. split; [exact H2|]. exact (H3 eq_refl).
Defined.

(** A topic created with zero partitions rejects the message built for
    it. *)
Lemma zero_partition_topic_sample :
  ∃ w1,
    create_topic "t" 0 unknown_topic_world = Ret tt w1 ∧
    topics (broker w1) !! "t" = Some (mkTopicData 0 []) ∧
    ∀ ops w2 a m,
      run_ops sample_hash sample_clock ops w1 = Ret tt w2 →
      heap w2 !! a = Some m →
      topic m = "t" →
      publish sample_hash a w2 = Ret false w2.
Proof.
  apply (zero_partition_topic_rejects_publish sample_hash sample_clock "t"
           unknown_topic_world); reflexivity.
Defined.

(** Publishing to a topic that was never created, on a new broker. *)
Lemma publish_unknown_topic_blocks_sample :
  ∃ w',
    publish sample_hash 0 unknown_topic_world = Blocked w' ∧
    lock (broker w') = true ∧
    topics (broker w') = topics (broker unknown_topic_world) ∧
    heap w' = heap unknown_topic_world.
Proof.
  destruct (publish_unknown_topic_blocks sample_hash 0 (sample_message "t" "k" 0)
              unknown_topic_world eq_refl eq_refl eq_refl)
    as (w' & H1 & H2 & H3 & H4 & _).
  exists w'. split; [exact H1|]. split; [exact H2|]. split; [exact H3|exact H4].
Defined.

(** A message with the empty key that was built with [partition=7],
    in a topic with two partitions: it is accepted, its partition
    becomes 0 and it goes to the first log. *)
Lemma empty_key_sample :
  ∃ w',
    publish sample_hash 0 (stale_partition 2) = Ret true w' ∧
    heap (stale_partition 2) !! 0%nat = Some (sample_message "t" "" 7) ∧
    heap w' !! 0%nat = Some (sample_message "t" "" 0) ∧
    topics (broker w') !! "t" = Some (mkTopicData 2 [[0%nat]; []]).
Proof.
  destruct (empty_key_routes_to_partition_zero sample_hash 0
              (sample_message "t" "" 7) (mkTopicData 2 [[]; []])
              (stale_partition 2) eq_refl eq_refl eq_refl eq_refl eq_refl eq_refl)
    as [H _].
  destruct H as (w' & H1 & _ & H3 & H4 & _); [simpl; lia|].
  destruct H4 as (log & rest & Hm & Ht); [simpl; lia|].
  injection Hm as <- <-.
  exists w'. split; [exact H1|]. split; [reflexivity|].
  split; [exact H3|exact Ht].
Defined.

(** [create_topic("t", 0)], then [publish] of a message with the empty
    key that was built with [partition=7]: nothing is assigned, the
    message keeps partition 7 and is stored nowhere. *)
Lemma empty_key_zero_partitions_keeps_partition :
  sample_hash "" = 0 ∧
  create_topic "t" 0 (mkWorld [sample_message "t" "" 7] new_broker []) =
    Ret tt (stale_partition 0) ∧
  publish sample_hash 0 (stale_partition 0) = Ret false (stale_partition 0) ∧
  heap (stale_partition 0) !! 0%nat = Some (sample_message "t" "" 7) ∧
  topics (broker (stale_partition 0)) !! "t" = Some (mkTopicData 0 []).
Proof. repeat split; by vm_compute. Qed.

(** The first message of [two_partitions] is accepted into partition 1
    and stays as published whatever happens next. *)
Lemma published_partition_sample :
  ∃ td p,
    topics (broker two_partitions) !! "t" = Some td ∧
    p = sample_hash "a" mod partitions td ∧
    0 ≤ p < partitions td ∧
    heap (state_of (publish sample_hash 0 two_partitions)) !! 0%nat =
      Some (mkStreamMessage "t" "a" [] 0 p) ∧
    (∀ ops,
       heap (state_of (run_ops sample_hash sample_clock ops
                         (state_of (publish sample_hash 0 two_partitions)))) !! 0%nat =
       heap (state_of (publish sample_hash 0 two_partitions)) !! 0%nat) ∧
    (∀ ops b mb,
       heap (state_of (publish sample_hash 0 two_partitions)) !! b = Some mb →
       ∃ q, heap (state_of (run_ops sample_hash sample_clock ops
                              (state_of (publish sample_hash 0 two_partitions)))) !! b =
              Some (mkStreamMessage (topic mb) (key mb) (value mb) (timestamp mb) q)).
Proof.
  apply (published_partition_in_range_and_fixed sample_hash sample_clock 0
           (sample_message "t" "a" 0) two_partitions
           (state_of (publish sample_hash 0 two_partitions))).
  - intros name td H. unfold two_partitions in H. simpl in H.
    apply lookup_singleton_Some in H as [_ <-]. reflexivity.
  - reflexivity.
  - vm_compute. reflexivity.
Defined.

(** [consume("t", "g", -1)] on a log of three records returns two of
    them, more than [max_messages * partition_count = -1]. *)
Lemma consume_negative_max_messages :
  result_of (consume "t" "g" (-1) backlog) = Some [0; 1]%nat ∧
  topics (broker (state_of (consume "t" "g" (-1) backlog))) !! "t" =
    Some (mkTopicData 1 [[2%nat]]) ∧
  (-1) * 1 < Z.of_nat (length [0; 1]%nat).
Proof. split; [|split]; by vm_compute. Qed.

(** [consume("t", "g", 2)] on the same log. *)
Lemma consume_takes_per_partition_sample :
  ∃ w',
    consume "t" "g" 2 backlog = Ret [0; 1]%nat w' ∧
    topics (broker w') !! "t" = Some (mkTopicData 1 [[2%nat]]).
Proof.
  destruct (consume_takes_per_partition "t" "g" 2 (mkTopicData 1 [[0; 1; 2]%nat])
              backlog eq_refl eq_refl)
    as (w' & H1 & H2 & _).
  exists w'. split; [exact H1|exact H2].
Defined.

(** Subscribing twice to [t]: the broker lists the consumer twice. *)
Lemma subscribe_twice_registers_twice :
  consumers
    (broker (state_of (subscribe (StreamConsumer_init 7 "g") ["t"] new_world)))
    !! "t" = Some [7%nat] ∧
  consumers
    (broker
       (state_of
          ((let* c1 := subscribe (StreamConsumer_init 7 "g") ["t"] in
            subscribe c1 ["t"]) new_world)))
    !! "t" = Some [7; 7]%nat.
Proof. split; by vm_compute. Qed.

(** Four publishes to [two_partitions], then two calls of
    [consume("t", "g", 1)]: each log is returned in publish order. *)
Lemma consume_is_fifo_sample :
  ∃ w1 w2,
    publish_each sample_hash [0; 1; 2; 3]%nat two_partitions = Ret tt w1 ∧
    topics (broker w1) !! "t" = Some (mkTopicData 2 [[1; 3]; [0; 2]]%nat) ∧
    consume_times 2 "t" "g" 1 w1 = Ret [[1; 0]; [3; 2]]%nat w2 ∧
    topics (broker w2) !! "t" = Some (mkTopicData 2 [[]; []]).
Proof.
  destruct (consume_is_fifo sample_hash "t" "g" 1 (mkTopicData 2 [[]; []])
              [0; 1; 2; 3]%nat 2 two_partitions)
    as (w1 & w2 & H1 & H2 & H3 & H4 & _).
  - reflexivity.
  - reflexivity.
  - reflexivity.
  - simpl. lia.
  - repeat constructor; eexists; split; reflexivity.
  - exists w1, w2. split; [exact H1|]. split; [exact H2|].
    split; [exact H3|exact H4].
Defined.

(** A handler that raises on the first record of a batch of two: the
    second record has left the broker and is never handled. *)
Lemma handler_fault_drops_rest_of_batch :
  result_of (consume "t" "g" 10 two_pending) = Some [0; 1]%nat ∧
  poll_once (mkStreamConsumer 1 "g" {["t"]} true (Some fragile_handler)) two_pending
    = Ret tt two_faulted ∧
  handled two_faulted = [0%nat] ∧
  topics (broker two_faulted) !! "t" = Some (mkTopicData 2 [[]; []]).
Proof. repeat split; by vm_compute. Qed.

(** The same fault, and the same sweep with a handler that calls
    [sys.exit()]: the first is caught and the loop goes on, the second
    ends the loop. *)
Lemma handler_fault_abandons_sweep_sample :
  poll_once (mkStreamConsumer 1 "g" {["t"]} true (Some fragile_handler)) two_pending
    = Ret tt two_faulted ∧
  (∀ n,
     poll_loop (mkStreamConsumer 1 "g" {["t"]} true (Some fragile_handler)) (S n)
       two_pending =
     poll_loop (mkStreamConsumer 1 "g" {["t"]} true (Some fragile_handler)) n
       two_faulted) ∧
  poll_once (mkStreamConsumer 1 "g" {["t"]} true (Some exiting_handler)) two_pending
    = Raise SystemExit two_faulted ∧
  (∀ n,
     poll_loop (mkStreamConsumer 1 "g" {["t"]} true (Some exiting_handler)) (S n)
       two_pending = Raise SystemExit two_faulted).
Proof.
  destruct (handler_fault_abandons_sweep sample_hash sample_clock
              (mkStreamConsumer 1 "g" {["t"]} true (Some fragile_handler))
              [] "t" [] [] 0%nat [1%nat] UserError
              two_pending two_pending two_consumed two_consumed two_faulted)
    as (H1 & H2 & _).
  - by vm_compute.
  - reflexivity.
  - by vm_compute.
  - reflexivity.
  - by vm_compute.
  - destruct (handler_fault_abandons_sweep sample_hash sample_clock
                (mkStreamConsumer 1 "g" {["t"]} true (Some exiting_handler))
                [] "t" [] [] 0%nat [1%nat] SystemExit
                two_pending two_pending two_consumed two_consumed two_faulted)
      as (H3 & H4 & _).
    + by vm_compute.
    + reflexivity.
    + by vm_compute.
    + reflexivity.
    + by vm_compute.
    + split; [exact H1|]. split; [exact H2|]. split; [exact H3|exact H4].
Defined.

(** Two records that a processor consumes and does not republish.
    [aggregate_events] raises on the payload [{"value": "ten"}]: the
    record is consumed and handled, and nothing reaches the output
    topic.  And with an output topic created with zero partitions the
    transformed payload of [{"value": 10}] is refused by [publish]: the
    output topic stays without any record. *)
Lemma processor_drops_records :
  aggregate_events "2026-01-01T00:00:00" [("value", PyStr "ten")] = inl TypeError ∧
  result_of
    ((let* c := add_processor sample_hash sample_clock 1 "event_aggregator"
                  "user_events" "processed_events"
                  (aggregate_events "2026-01-01T00:00:00") in
      poll_once c) (intake (PyStr "ten") 2)) = Some tt ∧
  handled
    (state_of
       ((let* c := add_processor sample_hash sample_clock 1 "event_aggregator"
                     "user_events" "processed_events"
                     (aggregate_events "2026-01-01T00:00:00") in
         poll_once c) (intake (PyStr "ten") 2))) = [0%nat] ∧
  topics
    (broker
       (state_of
          ((let* c := add_processor sample_hash sample_clock 1 "event_aggregator"
                        "user_events" "processed_events"
                        (aggregate_events "2026-01-01T00:00:00") in
            poll_once c) (intake (PyStr "ten") 2))))
    = {["user_events" := mkTopicData 1 [[]];
        "processed_events" := mkTopicData 2 [[]; []]]} ∧
  heap
    (state_of
       ((let* c := add_processor sample_hash sample_clock 1 "event_aggregator"
                     "user_events" "processed_events"
                     (aggregate_events "2026-01-01T00:00:00") in
         poll_once c) (intake (PyStr "ten") 2))) = heap (intake (PyStr "ten") 2) ∧
  aggregate_events "2026-01-01T00:00:00" [("value", PyInt 10)] =
    inr [("value", PyInt 10); ("processed_at", PyStr "2026-01-01T00:00:00");
         ("event_score", PyFloat 15)] ∧
  result_of
    ((let* c := add_processor sample_hash sample_clock 1 "event_aggregator"
                  "user_events" "processed_events"
                  (aggregate_events "2026-01-01T00:00:00") in
      poll_once c) (intake (PyInt 10) 0)) = Some tt ∧
  handled
    (state_of
       ((let* c := add_processor sample_hash sample_clock 1 "event_aggregator"
                     "user_events" "processed_events"
                     (aggregate_events "2026-01-01T00:00:00") in
         poll_once c) (intake (PyInt 10) 0))) = [0%nat] ∧
  topics
    (broker
       (state_of
          ((let* c := add_processor sample_hash sample_clock 1 "event_aggregator"
                        "user_events" "processed_events"
                        (aggregate_events "2026-01-01T00:00:00") in
            poll_once c) (intake (PyInt 10) 0))))
    = {["user_events" := mkTopicData 1 [[]];
        "processed_events" := mkTopicData 0 []]}.
Proof. repeat split; by vm_compute. Qed.

(** The payload [{"value": 10}] through [aggregate_events]: after one
    iteration of the processor's loop the output topic holds a message
    with the key of the input record whose [event_score] is 15. *)
Lemma pipeline_event_score_sample :
  ∃ c w0 w' a' ts v,
    add_processor sample_hash sample_clock 1 "event_aggregator" "user_events"
      "processed_events" (aggregate_events "2026-01-01T00:00:00")
      (intake (PyInt 10) 2) = Ret c w0 ∧
    poll_once c w0 = Ret tt w' ∧
    heap w' !! a' = Some (mkStreamMessage "processed_events" "user_7" v ts 0) ∧
    dict_get "event_score" v = Some (PyFloat 15) ∧
    stored w' "processed_events" 0 a'.
Proof.
  destruct (processor_republishes_transformed sample_hash sample_clock 1
              "event_aggregator" "user_events" "processed_events"
              (aggregate_events "2026-01-01T00:00:00")
              (mkTopicData 1 [[0%nat]]) (mkTopicData 2 [[]; []])
              (intake (PyInt 10) 2))
    as (c & w0 & H1 & Hrun & _).
  - reflexivity.
  - by vm_compute.
  - by vm_compute.
  - reflexivity.
  - simpl. lia.
  - destruct (Hrun (aggregate_events_raises "2026-01-01T00:00:00"))
      as (w' & H2 & _ & H3).
    destruct (H3 0%nat
                (mkStreamMessage "user_events" "user_7" [("value", PyInt 10)] 0 0)
                [("value", PyInt 10);
                 ("processed_at", PyStr "2026-01-01T00:00:00");
                 ("event_score", PyFloat 15)])
      as (a' & ts & Ha' & Hst).
    + by vm_compute; left.
    + reflexivity.
    + by vm_compute.
    + exists c, w0, w', a', ts. eexists.
      split; [exact H1|]. split; [exact H2|]. split; [exact Ha'|].
      split; [by vm_compute|exact Hst].
Defined.

(** ** Further properties on the sample worlds *)

Lemma stats_account_for_consumed_sample :
  ∃ stats batch w1 stats1 total total1,
    get_topic_stats backlog = Ret stats backlog ∧
    consume "t" "g" 2 backlog = Ret batch w1 ∧
    get_topic_stats w1 = Ret stats1 w1 ∧
    total = (length batch + total1)%nat.
Proof.
  destruct (stats_account_for_consumed "t" "g" 2 (mkTopicData 1 [[0; 1; 2]%nat])
              backlog eq_refl eq_refl)
    as (stats & batch & w1 & stats1 & total & total1 & count &
        H1 & H2 & H3 & _ & _ & H6 & _).
  exists stats, batch, w1, stats1, total, total1.
  split; [exact H1|]. split; [exact H2|]. split; [exact H3|exact H6].
Defined.

Lemma stats_count_published_sample :
  ∃ stats accepted w1 stats1,
    get_topic_stats two_partitions = Ret stats two_partitions ∧
    publish sample_hash 0 two_partitions = Ret accepted w1 ∧
    get_topic_stats w1 = Ret stats1 w1.
Proof.
  destruct (stats_count_published sample_hash 0 (sample_message "t" "a" 0)
              (mkTopicData 2 [[]; []]) two_partitions eq_refl eq_refl eq_refl)
    as (stats & accepted & w1 & stats1 & H1 & H2 & H3 & _).
  exists stats, accepted, w1, stats1.
  split; [exact H1|]. split; [exact H2|exact H3].
Defined.

Lemma create_topic_forgets_earlier_subscribers_sample :
  ∃ c1 w1 w2 stats,
    subscribe (StreamConsumer_init 7 "g") ["t"] new_world = Ret c1 w1 ∧
    "t" ∈ subscribed_topics c1 ∧
    create_topic "t" 2 w1 = Ret tt w2 ∧
    consumers (broker w2) !! "t" = Some [] ∧
    get_topic_stats w2 = Ret stats w2 ∧
    stats !! "t" = Some (2, O, O).
Proof.
  destruct (create_topic_forgets_earlier_subscribers "t" 2
              (StreamConsumer_init 7 "g") new_world eq_refl eq_refl)
    as ((c1 & w1 & w2 & stats & H1 & H2 & _ & H4 & H5 & H6 & H7) & _).
  exists c1, w1, w2, stats.
  split; [exact H1|]. split; [exact H2|]. split; [exact H4|].
  split; [exact H5|]. split; [exact H6|exact H7].
Defined.

Lemma send_batch_sends_all_sample :
  ∃ w',
    send_batch sample_hash sample_clock "t"
      [[("n", PyInt 1)]; [("n", PyInt 2)]] two_partitions = Ret 2%nat w' ∧
    lock (broker w') = false.
Proof.
  destruct (send_batch_sends_all sample_hash sample_clock "t"
              [[("n", PyInt 1)]; [("n", PyInt 2)]] (mkTopicData 2 [[]; []])
              two_partitions eq_refl eq_refl eq_refl)
    as (w' & H1 & _ & _ & H4).
  - simpl. lia.
  - exists w'. split; [exact H1|exact H4].
Defined.

Lemma send_batch_sends_none_sample :
  ∃ w',
    send_batch sample_hash sample_clock "processed_events"
      [[("n", PyInt 1)]; [("n", PyInt 2)]] (intake (PyInt 10) 0) = Ret O w' ∧
    topics (broker w') = topics (broker (intake (PyInt 10) 0)).
Proof.
  destruct (send_batch_sends_none sample_hash sample_clock "processed_events"
              [[("n", PyInt 1)]; [("n", PyInt 2)]] (mkTopicData 0 [])
              (intake (PyInt 10) 0) eq_refl)
    as (w' & H1 & H2 & _).
  - by vm_compute.
  - reflexivity.
  - simpl. lia.
  - exists w'. split; [exact H1|exact H2].
Defined.

Lemma send_batch_unknown_topic_blocks_sample :
  (∃ w',
     send_batch sample_hash sample_clock "t" [[("n", PyInt 1)]] new_world =
       Blocked w' ∧
     lock (broker w') = true ∧
     topics (broker w') = topics (broker new_world)) ∧
  send_batch sample_hash sample_clock "t" [] new_world = Ret O new_world.
Proof.
  apply (send_batch_unknown_topic_blocks sample_hash sample_clock "t"
           [("n", PyInt 1)] [] new_world); reflexivity.
Defined.

Lemma same_key_same_partition_sample :
  ∃ p,
    partition <$>
      heap (state_of
              (publish sample_hash 1
                 (state_of
                    (run_ops sample_hash sample_clock [Consume "t" "g" 10]
                       (state_of (publish sample_hash 0 same_key_world))))))
        !! 0%nat = Some p ∧
    partition <$>
      heap (state_of
              (publish sample_hash 1
                 (state_of
                    (run_ops sample_hash sample_clock [Consume "t" "g" 10]
                       (state_of (publish sample_hash 0 same_key_world))))))
        !! 1%nat = Some p.
Proof.
  apply (same_key_same_partition sample_hash sample_clock 0 1
           (sample_message "t" "a" 0) (sample_message "t" "a" 0)
           [Consume "t" "g" 10] same_key_world
           (state_of (publish sample_hash 0 same_key_world))).
  - intros name td H. unfold same_key_world in H. simpl in H.
    apply lookup_singleton_Some in H as [_ <-]. reflexivity.
  - reflexivity.
  - by vm_compute.
  - by vm_compute.
  - reflexivity.
  - reflexivity.
  - by vm_compute.
Defined.

Lemma topics_outlive_every_history_sample :
  ∃ td',
    topics
      (broker
         (state_of
            (run_ops sample_hash sample_clock
               [Publish 0; Consume "t" "g" 10; CreateTopic "t" 9]
               two_partitions))) !! "t" = Some td' ∧
    partitions td' = 2 ∧
    length (messages td') = 2%nat.
Proof.
  apply (topics_outlive_every_history sample_hash sample_clock
           [Publish 0; Consume "t" "g" 10; CreateTopic "t" 9] "t"
           (mkTopicData 2 [[]; []]) two_partitions).
  reflexivity.
Defined.


Lemma blocks_exactly_on_unknown_topic_sample :
  (∃ w', run_op sample_hash sample_clock (Send "t" "k" []) new_world = Blocked w') ↔
  hits_unknown_topic new_world (Send "t" "k" []).
Proof.
  apply (blocks_exactly_on_unknown_topic sample_hash sample_clock
           (Send "t" "k" []) new_world).
  reflexivity.
Defined.

Lemma created_topics_never_block_sample :
  ∃ w',
    run_ops sample_hash sample_clock
      [Send "t" "k" []; Publish 0; Consume "t" "g" 1] two_partitions = Ret tt w' ∧
    lock (broker w') = false ∧
    {["t"]} ⊆ dom (topics (broker w')) ∧
    heap_within {["t"]} w'.
Proof.
  destruct (created_topics_never_block sample_hash sample_clock {["t"]}
              [Send "t" "k" []; Publish 0; Consume "t" "g" 1] two_partitions)
    as [_ H].
  - reflexivity.
  - unfold two_partitions. simpl. by rewrite dom_singleton_L.
  - intros a m H. apply list_elem_of_lookup_2 in H.
    unfold two_partitions in H. simpl in H.
    repeat (apply elem_of_cons in H as [->|H]; [by apply elem_of_singleton|]).
    by apply elem_of_nil in H.
  - repeat constructor; by apply elem_of_singleton.
  - apply H. repeat constructor.
Defined.

Lemma negative_partition_count_sample :
  messages (mkTopicData (-2) []) = [] ∧
  ∃ w',
    publish sample_hash 0 negative_topic_world = Ret false w' ∧
    topics (broker w') = topics (broker negative_topic_world) ∧
    heap w' !! 0%nat = Some (sample_message "t" "abc" (-1)).
Proof.
  destruct (negative_partition_count_marks_rejected_message sample_hash 0
              (sample_message "t" "abc" 0) (mkTopicData (-2) [])
              negative_topic_world eq_refl eq_refl eq_refl eq_refl)
    as (H0 & w' & H1 & H2 & H3 & _).
  - simpl. lia.
  - split; [exact H0|]. exists w'.
    split; [exact H1|]. split; [exact H2|exact H3].
Defined.

Lemma groups_share_the_logs_sample :
  ∃ w1 w2,
    consume "t" "g1" 5 backlog = Ret [0; 1; 2]%nat w1 ∧
    consume "t" "g2" 5 w1 = Ret [] w2 ∧
    consume "t" "g2" 5 w1 = Ret [] w1.
Proof.
  destruct (groups_share_the_logs "t" "g1" "g2" 5 5
              (mkTopicData 1 [[0; 1; 2]%nat]) backlog eq_refl eq_refl)
    as (w1 & w2 & H1 & H2 & H3).
  exists w1, w2. split; [exact H1|]. split; [exact H2|].
  apply H3. repeat constructor. simpl. lia.
Defined.

Lemma consumer_without_handler_discards_sample :
  ∃ w',
    poll_once (mkStreamConsumer 1 "g" {["t"]} true None) two_pending = Ret tt w' ∧
    handled w' = [] ∧
    heap w' = heap two_pending.
Proof.
  destruct (consumer_without_handler_discards
              (mkStreamConsumer 1 "g" {["t"]} true None) two_pending
              eq_refl eq_refl)
    as (w' & H1 & H2 & H3 & _).
  exists w'. split; [exact H1|]. split; [exact H2|exact H3].
Defined.

Lemma rebound_processor_is_never_stopped_sample :
  ∃ r1 w1 r2 w2,
    register_processor sample_hash sample_clock 1 "p" "in" "out" inr
      new_registry new_world = Ret r1 w1 ∧
    register_processor sample_hash sample_clock 2 "p" "in" "out" inr
      (mkRegistry (thread_begins 1 (consumer_objects r1)) (processors r1))
      w1 = Ret r2 w2 ∧
    processors r2 !! "p" = Some (mkProcessorEntry 2 "in" "out") ∧
    running <$>
      consumer_objects
        (stop_all_processors
           (mkRegistry (thread_begins 2 (consumer_objects r2)) (processors r2)))
        !! 1%nat = Some true ∧
    running <$>
      consumer_objects
        (stop_all_processors
           (mkRegistry (thread_begins 2 (consumer_objects r2)) (processors r2)))
        !! 2%nat = Some false.
Proof.
  apply (rebound_processor_is_never_stopped sample_hash sample_clock 1 2 "p"
           "in" "out" inr "in" "out" inr new_registry new_world).
  - discriminate.
  - intros other e H. unfold new_registry in H. simpl in H.
    by rewrite lookup_empty in H.
Defined.

Lemma main_pipeline_end_to_end_sample :
  ∃ r w0 c w1 w2 a' ts,
    main_setup sample_hash sample_clock 1 "2026-01-01T00:00:00" new_world =
      Ret r w0 ∧
    consumer_objects r !! 1%nat = Some c ∧
    send sample_hash sample_clock "user_events" "user_7" [("value", PyInt 10)] w0 =
      Ret true w1 ∧
    poll_once c w1 = Ret tt w2 ∧
    heap w2 !! a' =
      Some (mkStreamMessage "processed_events" "user_7"
              [("value", PyInt 10);
               ("processed_at", PyStr "2026-01-01T00:00:00");
               ("event_score", PyFloat 15)]
              ts 0).
Proof.
  destruct (main_pipeline_end_to_end sample_hash sample_clock 1
              "2026-01-01T00:00:00" "user_7" [("value", PyInt 10)]
              [("value", PyInt 10);
               ("processed_at", PyStr "2026-01-01T00:00:00");
               ("event_score", PyFloat 15)])
    as (r & w0 & c & w1 & w2 & a' & ts & H1 & _ & H3 & H4 & H5 & _ & H7 & _).
  - by vm_compute.
  - exists r, w0, c, w1, w2, a', ts.
    split; [exact H1|]. split; [exact H3|]. split; [exact H4|].
    split; [exact H5|exact H7].
Defined.
